(** * gsnake: the game state machine of [gsnake.go]

    A shallow embedding of the game core of the terminal Snake game
    ([Point], [Snake], [Game], [init], [spawnFood], [update],
    [changeDirection], the key dispatch of [handleInput] and the board
    construction of [render]) together with the properties the
    specification states about it.

    Modelling conventions.
    - Go's [int] is taken as the 64-bit two's-complement integer of the
      linux/amd64 target the ioctl numbers of the source belong to.  A value
      is a [Z]; every arithmetic operation of the source is followed by an
      explicit [wrap].
    - A method with receiver [*Game] is a function from the game (and the
      remaining random draws) to an [outcome]: the method returned, it
      panicked, or it is still inside the retry loop of [spawnFood] when the
      random source has no draw left.
    - [math/rand] is an external source: it is a list of raw draws, and
      [rand.Intn n] takes the next draw modulo [n] (and panics for [n <= 0],
      as its documentation says). *)

From Stdlib Require Import ZArith List Bool Lia.
From stdpp Require Import base list.
Import ListNotations.
Local Open Scope Z_scope.

(** ** Machine integers *)

Module GoInt.

Definition bits : Z := 64.
Definition modulus : Z := 2 ^ bits.
Definition min_int : Z := - 2 ^ (bits - 1).
Definition max_int : Z := 2 ^ (bits - 1) - 1.

(** Two's-complement reduction into [min_int .. max_int]. *)
Definition wrap (z : Z) : Z := (z - min_int) mod modulus + min_int.

Definition add (a b : Z) : Z := wrap (a + b).
Definition sub (a b : Z) : Z := wrap (a - b).
Definition neg (a : Z) : Z := wrap (- a).

Definition in_range (z : Z) : Prop := min_int <= z <= max_int.

End GoInt.

(** ** Data model *)

Record Point := mkPoint { x : Z; y : Z }.

Record Snake := mkSnake { body : list Point; direction : Point }.

Record Game := mkGame {
  width : Z;
  height : Z;
  snake : Snake;
  food : Point;
  score : Z;
  gameOver : bool;
  quit : bool
}.

(** The zero value [Game{}] that [main] starts from. *)
Definition zeroGame : Game :=
  mkGame 0 0 (mkSnake [] (mkPoint 0 0)) (mkPoint 0 0) 0 false false.

(** Field assignments [g.f = v]. *)
Definition set_width (v : Z) (g : Game) : Game :=
  mkGame v (height g) (snake g) (food g) (score g) (gameOver g) (quit g).
Definition set_height (v : Z) (g : Game) : Game :=
  mkGame (width g) v (snake g) (food g) (score g) (gameOver g) (quit g).
Definition set_snake (v : Snake) (g : Game) : Game :=
  mkGame (width g) (height g) v (food g) (score g) (gameOver g) (quit g).
Definition set_food (v : Point) (g : Game) : Game :=
  mkGame (width g) (height g) (snake g) v (score g) (gameOver g) (quit g).
Definition set_score (v : Z) (g : Game) : Game :=
  mkGame (width g) (height g) (snake g) (food g) v (gameOver g) (quit g).
Definition set_gameOver (v : bool) (g : Game) : Game :=
  mkGame (width g) (height g) (snake g) (food g) (score g) v (quit g).
Definition set_quit (v : bool) (g : Game) : Game :=
  mkGame (width g) (height g) (snake g) (food g) (score g) (gameOver g) v.
Definition set_body (v : list Point) (g : Game) : Game :=
  set_snake (mkSnake v (direction (snake g))) g.
Definition set_direction (v : Point) (g : Game) : Game :=
  set_snake (mkSnake (body (snake g)) v) g.

(** [a.x == b.x && a.y == b.y], the comparison the source writes out at
    every use. *)
Definition same_cell (a b : Point) : bool := (x a =? x b) && (y a =? y b).

(** ** Outcomes of a method call *)

Inductive outcome : Type :=
| Ret (g : Game) (rest : list Z)   (* returned; the draws not consumed *)
| Panic                            (* run-time panic *)
| Starved (g : Game).              (* still looping, no draw left *)

(** The game a call leaves behind, whether it returned or not. *)
Definition state_of (o : outcome) : option Game :=
  match o with
  | Ret g _ => Some g
  | Starved g => Some g
  | Panic => None
  end.

Definition returned (o : outcome) : Prop := exists g rest, o = Ret g rest.

(** Sequencing: run [k] on what [o] returned. *)
Definition andThen (o : outcome) (k : Game -> list Z -> outcome) : outcome :=
  match o with
  | Ret g rest => k g rest
  | Panic => Panic
  | Starved g => Starved g
  end.

(** ** The random source *)

(** [rand.Intn(n)]: panic for [n <= 0]; otherwise the next draw reduced
    into [0, n) is handed to the continuation [k]; with no draw left the
    caller stays where it is ([starved]). *)
Definition Intn (n : Z) (rs : list Z) (starved : outcome)
    (k : Z -> list Z -> outcome) : outcome :=
  if n <=? 0 then Panic
  else match rs with
       | [] => starved
       | r :: rest => k (r mod n) rest
       end.

(** ** spawnFood *)

(** The range loop over the body with its [break]. *)
Definition food_valid (g : Game) : bool :=
  negb (existsb (fun segment => same_cell segment (food g)) (body (snake g))).

Fixpoint spawnFood (g : Game) (rs : list Z) {struct rs} : outcome :=
  Intn (GoInt.sub (width g) 2) rs (Starved g) (fun rx rs1 =>
  Intn (GoInt.sub (height g) 2) rs1 (Starved g) (fun ry rs2 =>
    let g1 := set_food (mkPoint (GoInt.add rx 1) (GoInt.add ry 1)) g in
    if food_valid g1 then Ret g1 rs2 else spawnFood g1 rs2)).

(** ** init *)

Definition initialSnake : Snake :=
  mkSnake [mkPoint 10 10; mkPoint 9 10; mkPoint 8 10] (mkPoint 1 0).

Definition init (g : Game) (rs : list Z) : outcome :=
  let g1 := set_snake initialSnake (set_height 20 (set_width 40 g)) in
  andThen (spawnFood g1 rs) (fun g2 rest =>
    Ret (set_quit false (set_gameOver false (set_score 0 g2))) rest).

(** ** update *)

(** [head + direction], in machine arithmetic. *)
Definition step_from (head d : Point) : Point :=
  mkPoint (GoInt.add (x head) (x d)) (GoInt.add (y head) (y d)).

(** The border test of [update]. *)
Definition hits_border (g : Game) (p : Point) : bool :=
  (x p <=? 0) || (x p >=? GoInt.sub (width g) 1)
  || (y p <=? 0) || (y p >=? GoInt.sub (height g) 1).

(** The range loop over the body with its early [return]. *)
Definition hits_body (p : Point) (segments : list Point) : bool :=
  existsb (fun segment => same_cell p segment) segments.

Definition update (g : Game) (rs : list Z) : outcome :=
  if gameOver g || quit g then Ret g rs
  else
    match body (snake g) with
    | [] => Panic                             (* body[0]: index out of range *)
    | head :: _ =>
        let newHead := step_from head (direction (snake g)) in
        if hits_border g newHead then Ret (set_gameOver true g) rs
        else if hits_body newHead (body (snake g)) then
          Ret (set_gameOver true g) rs
        else
          let g1 := set_body (newHead :: body (snake g)) g in
          if same_cell newHead (food g1) then
            spawnFood (set_score (GoInt.add (score g1) 1) g1) rs
          else
            Ret (set_body (firstn (length (body (snake g1)) - 1)
                                  (body (snake g1))) g1) rs
    end.

(** The cell [update] is about to enter: defined when the body has a head. *)
Definition newHead (g : Game) : option Point :=
  match body (snake g) with
  | [] => None
  | head :: _ => Some (step_from head (direction (snake g)))
  end.

(** ** changeDirection *)

Definition changeDirection (dx dy : Z) (g : Game) : Game :=
  if (x (direction (snake g)) =? GoInt.neg dx)
     && (y (direction (snake g)) =? GoInt.neg dy)
  then g
  else set_direction (mkPoint dx dy) g.

(** ** handleInput *)

(** The [switch seq[1]] after [ESC '[']. *)
Definition arrow (code : Z) (g : Game) : Game :=
  if code =? 65 then changeDirection 0 (-1) g
  else if code =? 66 then changeDirection 0 1 g
  else if code =? 67 then changeDirection 1 0 g
  else if code =? 68 then changeDirection (-1) 0 g
  else g.

(** The two bytes read after an escape byte. *)
Definition escape (seq0 seq1 : Z) (g : Game) : Game :=
  if seq0 =? 91 then arrow seq1 g else g.

(** The [switch key] for a byte other than escape.  ['q'] is 113, ['Q'] 81,
    ['r'] 114, ['R'] 82.  After ['q'] the handler returns; the loop
    condition [!g.quit] of [handleInput] gives the same effect here. *)
Definition handleKey (key : Z) (g : Game) (rs : list Z) : outcome :=
  if (key =? 113) || (key =? 81) then Ret (set_quit true g) rs
  else if (key =? 114) || (key =? 82) then
    if gameOver g then init g rs else Ret g rs
  else Ret g rs.

(** The read loop over the bytes standard input delivers.  The two-byte
    buffer [seq] starts zeroed, so bytes that did not arrive read as 0.
    [Ret] also stands for the handler waiting in [Read] once the input is
    used up. *)
Fixpoint handleInput (stdin : list Z) (g : Game) (rs : list Z)
    {struct stdin} : outcome :=
  if quit g then Ret g rs
  else
    match stdin with
    | [] => Ret g rs
    | key :: more =>
        if key =? 27 then
          match more with
          | [] => Ret (escape 0 0 g) rs
          | seq0 :: more1 =>
              match more1 with
              | [] => Ret (escape seq0 0 g) rs
              | seq1 :: more2 => handleInput more2 (escape seq0 seq1 g) rs
              end
          end
        else andThen (handleKey key g rs) (handleInput more)
    end.

(** ** render: the board *)

(** Go's [rune] is a code point; a board is a slice of rows. *)
Abbreviation rune := Z (only parsing).
Definition glyph_border : rune := 9608.   (* U+2588 *)
Definition glyph_empty : rune := 32.
Definition glyph_food : rune := 9830.     (* U+2666 *)
Definition glyph_snake : rune := 9632.    (* U+25A0 *)

Abbreviation board_t := (list (list Z)) (only parsing).

(** The nested [make] loops.  [make] panics on a negative length. *)
Definition blank_board (g : Game) : option board_t :=
  if height g <? 0 then None
  else if (0 <? height g) && (width g <? 0) then None
  else Some (map (fun i =>
               map (fun j =>
                 if (i =? 0) || (i =? GoInt.sub (height g) 1)
                    || (j =? 0) || (j =? GoInt.sub (width g) 1)
                 then glyph_border else glyph_empty)
                 (seqZ 0 (width g)))
               (seqZ 0 (height g))).

(** [board[row][col] = r], with Go's bounds checks on both indices. *)
Definition store (row col : Z) (r : rune) (board : board_t) : option board_t :=
  if (row <? 0) || (Z.of_nat (length board) <=? row) then None
  else
    match board !! Z.to_nat row with
    | None => None
    | Some line =>
        if (col <? 0) || (Z.of_nat (length line) <=? col) then None
        else Some (<[Z.to_nat row := <[Z.to_nat col := r]> line]> board)
    end.

Fixpoint draw_snake (segments : list Point) (board : board_t) : option board_t :=
  match segments with
  | [] => Some board
  | segment :: more =>
      match store (y segment) (x segment) glyph_snake board with
      | None => None
      | Some board' => draw_snake more board'
      end
  end.

(** The board [render] prints; [None] is an index-out-of-range panic. *)
Definition render_board (g : Game) : option board_t :=
  match blank_board g with
  | None => None
  | Some board =>
      match store (y (food g)) (x (food g)) glyph_food board with
      | None => None
      | Some board' => draw_snake (body (snake g)) board'
      end
  end.

(** ** Runs of the program *)

(** What the two goroutines do to the game, one call at a time. *)
Inductive event : Type :=
| Tick                      (* the main loop: [update] when not game over *)
| Turn (dx dy : Z)          (* the input task: [changeDirection dx dy] *).

Definition do_event (e : event) (g : Game) (rs : list Z) : outcome :=
  match e with
  | Tick => if gameOver g then Ret g rs else update g rs
  | Turn dx dy => Ret (changeDirection dx dy g) rs
  end.

Fixpoint run (es : list event) (g : Game) (rs : list Z) : outcome :=
  match es with
  | [] => Ret g rs
  | e :: more => andThen (do_event e g rs) (run more)
  end.

(** The directions read by the ticks of a run that reach the head
    computation of [update] (game neither over nor quit), oldest first. *)
Fixpoint tick_directions (es : list event) (g : Game) (rs : list Z)
    : list Point :=
  match es with
  | [] => []
  | e :: more =>
      let used :=
        match e with
        | Tick => if gameOver g || quit g then [] else [direction (snake g)]
        | Turn _ _ => []
        end in
      match do_event e g rs with
      | Ret g' rest => used ++ tick_directions more g' rest
      | _ => used
      end
  end.

(** [d] is the exact reverse of [e]. *)
Definition reverse_of (d e : Point) : bool :=
  (x d =? GoInt.neg (x e)) && (y d =? GoInt.neg (y e)).

Fixpoint no_reversal (ds : list Point) : bool :=
  match ds with
  | e :: ((d :: _) as more) => negb (reverse_of d e) && no_reversal more
  | _ => true
  end.

(** States reachable from [init] by completed calls. *)
Inductive reachable : Game -> Prop :=
| reach_init g0 rs g rest :
    init g0 rs = Ret g rest -> reachable g
| reach_update g rs g' rest :
    reachable g -> update g rs = Ret g' rest -> reachable g'
| reach_turn g dx dy :
    reachable g -> reachable (changeDirection dx dy g)
| reach_spawn g rs g' rest :
    reachable g -> spawnFood g rs = Ret g' rest -> reachable g'.

(** ** Board geometry *)

(** A cell strictly inside the one-cell border, with the bounds as the
    source computes them. *)
Definition interior (g : Game) (p : Point) : Prop :=
  1 <= x p <= GoInt.sub (width g) 2 /\ 1 <= y p <= GoInt.sub (height g) 2.

(** What every state of a run satisfies: the board of [init], a snake of
    at least three distinct interior cells, the food on an interior cell,
    and one point scored per segment grown. *)
Definition invariant (g : Game) : Prop :=
  width g = 40 /\ height g = 20 /\
  (3 <= length (body (snake g)))%nat /\
  Forall (interior g) (body (snake g)) /\
  interior g (food g) /\
  List.NoDup (body (snake g)) /\
  score g = Z.of_nat (length (body (snake g))) - 3.

(** The interior cells of the 40 x 20 board. *)
Definition inner_cells : list Point :=
  map (fun ab => mkPoint (fst ab) (snd ab)) (list_prod (seqZ 1 38) (seqZ 1 18)).

(** A board of [h] rows of [w] cells. *)
Definition has_dims (h w : nat) (board : board_t) : Prop :=
  length board = h /\ Forall (fun line => length line = w) board.

(** ** Counting the draws of the retry loop *)

(** What one round of the loop can draw: [rand.Intn(width-2)] and then
    [rand.Intn(height-2)], every pair once. *)
Definition round_draws (g : Game) : list (Z * Z) :=
  list_prod (seqZ 0 (GoInt.sub (width g) 2)) (seqZ 0 (GoInt.sub (height g) 2)).

(** Every sequence of draws that [k] rounds can see, each once: under a
    uniform source they are equally likely. *)
Fixpoint draws (g : Game) (k : nat) : list (list Z) :=
  match k with
  | O => [[]]
  | S k' =>
      flat_map (fun ab => map (fun t => fst ab :: snd ab :: t) (draws g k'))
               (round_draws g)
  end.

(** [rs] is [k] rounds of draws, each within the range of its [rand.Intn]. *)
Fixpoint valid_draws (g : Game) (k : nat) (rs : list Z) : Prop :=
  match k, rs with
  | O, [] => True
  | S k', a :: b :: t =>
      (0 <= a < GoInt.sub (width g) 2 /\ 0 <= b < GoInt.sub (height g) 2)
      /\ valid_draws g k' t
  | _, _ => False
  end.

Definition still_looping (o : outcome) : bool :=
  match o with
  | Starved _ => true
  | _ => false
  end.

(** How many of the [k]-round draw sequences leave [spawnFood] looping. *)
Definition looping_count (g : Game) (k : nat) : nat :=
  length (List.filter (fun rs => still_looping (spawnFood g rs)) (draws g k)).

(** The cell a pair of draws is turned into. *)
Definition drawn_cell (g : Game) (ab : Z * Z) : Point :=
  mkPoint (GoInt.add (fst ab mod GoInt.sub (width g) 2) 1)
          (GoInt.add (snd ab mod GoInt.sub (height g) 2) 1).

(** The pairs of draws that land on the snake and make the loop go round
    once more. *)
Definition occupied_draws (g : Game) : list (Z * Z) :=
  List.filter (fun ab => negb (food_valid (set_food (drawn_cell g ab) g)))
              (round_draws g).

(** The same pair of draws, [k] rounds in a row. *)
Fixpoint repeat_draw (a b : Z) (k : nat) : list Z :=
  match k with
  | O => []
  | S k' => a :: b :: repeat_draw a b k'
  end.

(** ** Sample games *)

(** The game right after [init] when the first two draws are 0. *)
Definition startGame : Game :=
  mkGame 40 20 initialSnake (mkPoint 1 1) 0 false false.

(** The snake about to eat: food right in front of the head. *)
Definition feedingGame : Game := set_food (mkPoint 11 10) startGame.

(** A snake curled in a square whose head faces its own tail. *)
Definition curledGame : Game :=
  set_snake (mkSnake [mkPoint 5 5; mkPoint 5 6; mkPoint 6 6; mkPoint 6 5]
                     (mkPoint 1 0)) startGame.

(** The head one step from the right wall. *)
Definition wallGame : Game :=
  set_snake (mkSnake [mkPoint 38 10; mkPoint 37 10; mkPoint 36 10]
                     (mkPoint 1 0)) startGame.

(** The bytes of the Up and Left arrow keys: [ESC '[' 'A'], [ESC '[' 'D']. *)
Definition doubleTurnKeys : list Z := [27; 91; 65; 27; 91; 68].

(** Up, then left, between two ticks of a snake heading right. *)
Definition doubleTurn : list event := [Tick; Turn 0 (-1); Turn (-1) 0; Tick].

(** ** The program as a whole *)

(** The states the running program goes through: [main] calls [init] on
    the zero game, then the ticker runs [update] while the game is neither
    over nor quit, and the input task feeds bytes to [handleInput]. *)
Inductive in_play : Game -> Prop :=
| play_start rs g rest :
    init zeroGame rs = Ret g rest -> in_play g
| play_tick g rs g' rest :
    in_play g -> quit g = false -> do_event Tick g rs = Ret g' rest ->
    in_play g'
| play_input g stdin rs g' rest :
    in_play g -> handleInput stdin g rs = Ret g' rest -> in_play g'.

(** The four deltas the arrow keys stand for. *)
Definition unit_vector (d : Point) : Prop :=
  d = mkPoint 1 0 \/ d = mkPoint (-1) 0 \/ d = mkPoint 0 1 \/ d = mkPoint 0 (-1).

(** Two cells side by side, horizontally or vertically. *)
Definition adjacent (a b : Point) : Prop :=
  Z.abs (x a - x b) + Z.abs (y a - y b) = 1.

(** Each segment lies next to the one after it. *)
Fixpoint contiguous (segments : list Point) : Prop :=
  match segments with
  | a :: ((b :: _) as more) => adjacent a b /\ contiguous more
  | _ => True
  end.

(** What the running program keeps besides [invariant]: the food off the
    snake, a unit direction, a body in one piece. *)
Definition play_invariant (g : Game) : Prop :=
  invariant g /\
  ~ In (food g) (body (snake g)) /\
  unit_vector (direction (snake g)) /\
  contiguous (body (snake g)).


(** [board[i][j]], when both indices are in range. *)
Definition cell (board : list (list Z)) (i j : Z) : option Z :=
  match board !! Z.to_nat i with
  | Some line => line !! Z.to_nat j
  | None => None
  end.

(** ** Terminal mode *)

Record termios := mkTermios {
  Iflag : Z;
  Oflag : Z;
  Cflag : Z;
  Lflag : Z;
  Cc : list Z;          (* [20]uint8 *)
  Ispeed : Z;
  Ospeed : Z
}.

(** The edits [enableRawMode] makes to its copy [raw] of the settings:
    [Lflag &^= 0x2 | 0x8], [Cc[6] = 1], [Cc[5] = 0]. *)
Definition rawTermios (t : termios) : termios :=
  mkTermios (Iflag t) (Oflag t) (Cflag t)
            (Z.ldiff (Lflag t) (Z.lor 2 8))
            (<[5%nat := 0]> (<[6%nat := 1]> (Cc t)))
            (Ispeed t) (Ospeed t).

Section TerminalMode.

(** The terminal behind file descriptor 0 is outside the program: [W] is
    its state, [tcgetattr] and [tcsetattr] stand for the two [ioctl]
    calls. *)
Variable W : Type.
Variable tcgetattr : W -> termios.
Variable tcsetattr : termios -> W -> W.

(** The terminal together with the global [originalTermios] ([None] is the
    nil pointer). *)
Record process := mkProcess {
  terminal : W;
  originalTermios : option termios
}.

Definition enableRawMode (p : process) : process :=
  let original := tcgetattr (terminal p) in
  mkProcess (tcsetattr (rawTermios original) (terminal p)) (Some original).

Definition disableRawMode (p : process) : process :=
  match originalTermios p with
  | Some original =>
      mkProcess (tcsetattr original (terminal p)) (originalTermios p)
  | None => p
  end.

End TerminalMode.

Arguments mkProcess {W} _ _.
Arguments terminal {W} _.
Arguments originalTermios {W} _.
Arguments enableRawMode {W} _ _ _.
Arguments disableRawMode {W} _ _.

(** The snake after its first tick, turned up and then left before the
    second. *)
Definition turnedGame : Game :=
  changeDirection (-1) 0
    (changeDirection 0 (-1)
       (set_body [mkPoint 11 10; mkPoint 10 10; mkPoint 9 10] startGame)).

(** A terminal that stores the settings it is given. *)
Definition plainTermios : termios :=
  mkTermios 17664 5 191 35387 (repeat 0 20) 0 0.

(** A one-cell board wholly covered by the snake. *)
Definition fullGame : Game :=
  mkGame 3 3 (mkSnake [mkPoint 1 1] (mkPoint 1 0)) (mkPoint 1 1) 0 false false.

(** * Properties *)

(** ** Machine arithmetic *)

Module GoIntFacts.
Import GoInt.

Ltac int_arith :=
  unfold in_range, add, sub, neg, wrap, min_int, max_int, modulus, bits in *;
  change (2 ^ 64) with 18446744073709551616 in *;
  change (2 ^ (64 - 1)) with 9223372036854775808 in *;
  Z.div_mod_to_equations; lia.

Lemma wrap_in_range z : in_range (wrap z).
Proof. int_arith. Qed.

Lemma wrap_small z : in_range z -> wrap z = z.
Proof. int_arith. Qed.

Lemma add_one_small z : min_int <= z < max_int -> add z 1 = z + 1.
Proof. int_arith. Qed.

Lemma sub_small w k :
  0 <= k -> min_int + k <= w <= max_int -> sub w k = w - k.
Proof. int_arith. Qed.

Lemma sub_in_range w k : in_range (sub w k).
Proof. apply wrap_in_range. Qed.

Lemma neg_involutive z : in_range z -> neg (neg z) = z.
Proof. int_arith. Qed.

(** A draw reduced into [0, n) and shifted by one lands in [1, n]. *)
Lemma draw_shift r n :
  0 < n -> in_range n -> 1 <= add (r mod n) 1 <= n.
Proof.
  intros Hn Hr. pose proof (Z.mod_pos_bound r n Hn) as Hb.
  generalize dependent (r mod n). intros m Hm. int_arith.
Qed.

(** Every value of [1, n] is such a shifted draw. *)
Lemma draw_shift_inv v n :
  1 <= v <= n -> in_range n -> add ((v - 1) mod n) 1 = v.
Proof.
  intros Hv Hr. rewrite Z.mod_small by lia. int_arith.
Qed.

(** Inside the border test of [update], [width - 2] is positive. *)
Lemma inner_width_pos w v : 0 < v < sub w 1 -> 0 < sub w 2.
Proof. int_arith. Qed.

End GoIntFacts.

(** ** Cells *)

Lemma same_cell_eq a b : same_cell a b = true <-> a = b.
Proof.
  unfold same_cell. rewrite andb_true_iff, !Z.eqb_eq.
  destruct a, b; simpl. split; [intros [-> ->]; reflexivity | intros [= -> ->]; auto].
Qed.

Lemma same_cell_neq a b : same_cell a b = false <-> a <> b.
Proof.
  rewrite <- same_cell_eq. destruct (same_cell a b); split; congruence.
Qed.

Lemma hits_body_In p segments : hits_body p segments = true <-> In p segments.
Proof.
  unfold hits_body. rewrite existsb_exists. split.
  - intros (q & Hq & Heq). apply same_cell_eq in Heq. now subst.
  - intros Hin. exists p. split; [assumption | now apply same_cell_eq].
Qed.

Lemma hits_body_not_In p segments :
  hits_body p segments = false <-> ~ In p segments.
Proof.
  rewrite <- hits_body_In. destruct (hits_body p segments); split; congruence.
Qed.

Lemma food_valid_not_In g :
  food_valid g = true <-> ~ In (food g) (body (snake g)).
Proof.
  unfold food_valid. rewrite negb_true_iff, <- hits_body_not_In.
  unfold hits_body.
  induction (body (snake g)) as [|s segments IH]; simpl; [tauto|].
  unfold same_cell at 1 3.
  rewrite (Z.eqb_sym (x s)), (Z.eqb_sym (y s)), !orb_false_iff. tauto.
Qed.

Lemma hits_border_true g p :
  hits_border g p = true <->
  x p <= 0 \/ x p >= GoInt.sub (width g) 1 \/
  y p <= 0 \/ y p >= GoInt.sub (height g) 1.
Proof.
  unfold hits_border. rewrite !orb_true_iff, !Z.leb_le, !Z.geb_le. lia.
Qed.

Lemma hits_border_false g p :
  hits_border g p = false <->
  0 < x p < GoInt.sub (width g) 1 /\ 0 < y p < GoInt.sub (height g) 1.
Proof.
  pose proof (hits_border_true g p) as H.
  destruct (hits_border g p); split; intros; try congruence; lia.
Qed.

(** ** The retry loop of spawnFood *)

(** Lists two elements at a time, the way the loop consumes its draws. *)
Lemma pairs_ind (P : list Z -> Prop) :
  P [] -> (forall a, P [a]) -> (forall a b l, P l -> P (a :: b :: l)) ->
  forall l, P l.
Proof.
  intros H0 H1 H2.
  assert (Hboth : forall l, P l /\ forall a, P (a :: l)).
  { induction l as [|b l [IHl IHl']]; split; auto. }
  intros l. apply Hboth.
Qed.

(** One round of the loop, unfolded. *)
Lemma spawnFood_round g a b rs :
  0 < GoInt.sub (width g) 2 -> 0 < GoInt.sub (height g) 2 ->
  spawnFood g (a :: b :: rs) =
  let g1 := set_food (mkPoint (GoInt.add (a mod GoInt.sub (width g) 2) 1)
                              (GoInt.add (b mod GoInt.sub (height g) 2) 1)) g in
  if food_valid g1 then Ret g1 rs else spawnFood g1 rs.
Proof.
  intros Hw Hh. simpl. unfold Intn.
  destruct (Z.leb_spec (GoInt.sub (width g) 2) 0); [lia|].
  destruct (Z.leb_spec (GoInt.sub (height g) 2) 0); [lia|].
  reflexivity.
Qed.

Lemma spawnFood_nil g :
  0 < GoInt.sub (width g) 2 -> spawnFood g [] = Starved g.
Proof.
  intros Hw. simpl. unfold Intn.
  destruct (Z.leb_spec (GoInt.sub (width g) 2) 0); [lia|reflexivity].
Qed.

Lemma spawnFood_single g a :
  0 < GoInt.sub (width g) 2 -> 0 < GoInt.sub (height g) 2 ->
  spawnFood g [a] = Starved g.
Proof.
  intros Hw Hh. simpl. unfold Intn.
  destruct (Z.leb_spec (GoInt.sub (width g) 2) 0); [lia|].
  destruct (Z.leb_spec (GoInt.sub (height g) 2) 0); [lia|reflexivity].
Qed.

(** [rand.Intn] panics exactly when an inner dimension is not positive. *)
Lemma spawnFood_panics_narrow g rs :
  GoInt.sub (width g) 2 <= 0 -> spawnFood g rs = Panic.
Proof.
  intros Hw. destruct rs; simpl; unfold Intn;
    destruct (Z.leb_spec (GoInt.sub (width g) 2) 0); (lia || reflexivity).
Qed.

(** With positive inner dimensions the loop never panics, and all it ever
    changes is [food], which it sets to an interior cell. *)
Lemma spawnFood_effect rs : forall g,
  0 < GoInt.sub (width g) 2 -> 0 < GoInt.sub (height g) 2 ->
  exists g', state_of (spawnFood g rs) = Some g' /\
    width g' = width g /\ height g' = height g /\ snake g' = snake g /\
    score g' = score g /\ gameOver g' = gameOver g /\ quit g' = quit g /\
    (food g' = food g \/ interior g' (food g')).
Proof.
  induction rs as [| a | a b rs IH] using pairs_ind; intros g Hw Hh.
  - rewrite spawnFood_nil by assumption. exists g. simpl. tauto.
  - rewrite spawnFood_single by assumption. exists g. simpl. tauto.
  - rewrite spawnFood_round by assumption. cbv zeta.
    set (p := mkPoint _ _).
    assert (Hp : interior (set_food p g) p).
    { unfold interior, p; simpl.
      split; apply GoIntFacts.draw_shift; auto using GoIntFacts.sub_in_range. }
    destruct (food_valid (set_food p g)).
    + exists (set_food p g). simpl. tauto.
    + destruct (IH (set_food p g) Hw Hh) as (g' & Hs & Hw' & Hh' & Hsn & Hsc & Hgo & Hq & Hf).
      exists g'. simpl in *. repeat split; try congruence.
      destruct Hf as [Hf | Hf]; [|now right].
      right. rewrite Hf. unfold interior in *. simpl in *. now rewrite Hw', Hh'.
Qed.

Lemma spawnFood_no_panic g rs :
  0 < GoInt.sub (width g) 2 -> 0 < GoInt.sub (height g) 2 ->
  spawnFood g rs <> Panic.
Proof.
  intros Hw Hh Hp.
  destruct (spawnFood_effect rs g Hw Hh) as (g' & Hs & _).
  rewrite Hp in Hs. discriminate.
Qed.

(** What holds when the loop is left through its [break]. *)
Lemma spawnFood_break_valid rs : forall g g' rest,
  spawnFood g rs = Ret g' rest ->
  food_valid g' = true /\ interior g' (food g').
Proof.
  induction rs as [| a | a b rs IH] using pairs_ind; intros g g' rest.
  - simpl. unfold Intn. destruct (_ <=? _); discriminate.
  - simpl. unfold Intn. repeat destruct (_ <=? _); discriminate.
  - destruct (Z.leb_spec (GoInt.sub (width g) 2) 0) as [Hw|Hw];
      [now rewrite spawnFood_panics_narrow|].
    destruct (Z.leb_spec (GoInt.sub (height g) 2) 0) as [Hh|Hh].
    { simpl. unfold Intn.
      destruct (Z.leb_spec (GoInt.sub (width g) 2) 0); [lia|].
      destruct (Z.leb_spec (GoInt.sub (height g) 2) 0); [discriminate|lia]. }
    rewrite spawnFood_round by assumption. cbv zeta.
    set (p := mkPoint _ _).
    destruct (food_valid (set_food p g)) eqn:Hv.
    + intros [= <- <-]. split; [assumption|].
      unfold interior, p; simpl.
      split; apply GoIntFacts.draw_shift; auto using GoIntFacts.sub_in_range.
    + apply IH.
Qed.

(** A call that returned is not affected by draws that come later. *)
Lemma spawnFood_extend more rs : forall g g' rest,
  spawnFood g rs = Ret g' rest ->
  spawnFood g (rs ++ more) = Ret g' (rest ++ more).
Proof.
  induction rs as [| a | a b rs IH] using pairs_ind; intros g g' rest.
  - simpl. unfold Intn. destruct (_ <=? _); discriminate.
  - simpl. unfold Intn. repeat destruct (_ <=? _); discriminate.
  - simpl. unfold Intn.
    destruct (_ <=? _); [discriminate|].
    destruct (_ <=? _); [discriminate|].
    destruct (food_valid _).
    + now intros [= <- <-].
    + apply IH.
Qed.

(** A free interior cell can always be drawn next. *)
Lemma spawnFood_hit g p rest :
  interior g p -> ~ In p (body (snake g)) ->
  spawnFood g ((x p - 1) :: (y p - 1) :: rest) = Ret (set_food p g) rest.
Proof.
  intros [Hx Hy] Hfree.
  rewrite spawnFood_round by lia. cbv zeta.
  rewrite !GoIntFacts.draw_shift_inv by auto using GoIntFacts.sub_in_range.
  replace (mkPoint (x p) (y p)) with p by now destruct p.
  assert (Hv : food_valid (set_food p g) = true)
    by now apply food_valid_not_In.
  now rewrite Hv.
Qed.

(** Whatever was drawn so far, some continuation makes the call return. *)
Lemma spawnFood_can_return rs : forall g p,
  interior g p -> ~ In p (body (snake g)) ->
  exists more, returned (spawnFood g (rs ++ more)).
Proof.
  induction rs as [| a | a b rs IH] using pairs_ind; intros g p Hp Hfree.
  - exists [x p - 1; y p - 1]. cbn [app].
    rewrite (spawnFood_hit g p []) by assumption. now eexists _, _.
  - destruct Hp as [Hx Hy].
    destruct (food_valid (set_food (mkPoint (GoInt.add (a mod GoInt.sub (width g) 2) 1)
       (GoInt.add ((y p - 1) mod GoInt.sub (height g) 2) 1)) g)) eqn:Hv.
    + exists [y p - 1]. cbn [app]. rewrite spawnFood_round by lia. cbv zeta.
      rewrite Hv. now eexists _, _.
    + exists [y p - 1; x p - 1; y p - 1]. cbn [app].
      rewrite spawnFood_round by lia. cbv zeta. rewrite Hv.
      rewrite (spawnFood_hit _ p []); [now eexists _, _ | split; assumption | assumption].
  - destruct Hp as [Hx Hy].
    destruct (food_valid (set_food (mkPoint (GoInt.add (a mod GoInt.sub (width g) 2) 1)
       (GoInt.add (b mod GoInt.sub (height g) 2) 1)) g)) eqn:Hv.
    + exists []. rewrite app_nil_r, spawnFood_round by lia. cbv zeta.
      rewrite Hv. now eexists _, _.
    + destruct (IH (set_food (mkPoint (GoInt.add (a mod GoInt.sub (width g) 2) 1)
         (GoInt.add (b mod GoInt.sub (height g) 2) 1)) g) p) as [more Hm];
        [split; assumption | assumption |].
      exists more. cbn [app]. rewrite spawnFood_round by lia. cbv zeta.
      now rewrite Hv.
Qed.

(** ** update *)

(** [body[:len(body)-1]] drops the last segment. *)
Lemma drop_last_cons (p : Point) (l : list Point) :
  l <> [] ->
  firstn (length (p :: l) - 1) (p :: l) = p :: removelast l.
Proof.
  intros Hne.
  replace (length (p :: l) - 1)%nat with (pred (length (p :: l)))
    by (simpl; lia).
  rewrite <- (removelast_firstn_len (p :: l)).
  simpl. destruct l; congruence.
Qed.

Lemma length_removelast (l : list Point) :
  l <> [] -> S (length (removelast l)) = length l.
Proof.
  intros Hne. rewrite removelast_firstn_len, length_firstn.
  destruct l; [congruence | simpl; lia].
Qed.

(** C8: in a game that is over or that the player has quit, [update]
    returns at once and the whole game state (width, height, snake body and
    direction, food, score, both flags) is what it was; no random draw is
    taken. *)
Theorem update_noop (g : Game) (rs : list Z) :
  gameOver g = true \/ quit g = true -> update g rs = Ret g rs.
Proof.
  intros H. unfold update.
  assert (Hor : gameOver g || quit g = true)
    by (apply orb_true_iff; exact H).
  now rewrite Hor.
Qed.

Lemma update_noop_witness :
  quit (set_quit true startGame) = true /\
  update (set_quit true startGame) [7; 7] = Ret (set_quit true startGame) [7; 7].
Proof.
  split; [reflexivity | apply update_noop; right; reflexivity].
Defined.

(** C4: [changeDirection dx dy] leaves the direction (and the whole game)
    unchanged when the current direction is the exact opposite of the
    request, that is [direction.x == -dx && direction.y == -dy]; in every
    other case the direction becomes [(dx, dy)] and nothing else changes.
    In particular the request for the reverse [(-x, -y)] of the current
    direction [(x, y)] changes nothing. *)
Theorem changeDirection_rule (g : Game) (dx dy : Z) :
  (x (direction (snake g)) = GoInt.neg dx /\
   y (direction (snake g)) = GoInt.neg dy ->
   changeDirection dx dy g = g) /\
  (~ (x (direction (snake g)) = GoInt.neg dx /\
      y (direction (snake g)) = GoInt.neg dy) ->
   direction (snake (changeDirection dx dy g)) = mkPoint dx dy /\
   changeDirection dx dy g = set_direction (mkPoint dx dy) g) /\
  (GoInt.in_range (x (direction (snake g))) ->
   GoInt.in_range (y (direction (snake g))) ->
   changeDirection (GoInt.neg (x (direction (snake g))))
                   (GoInt.neg (y (direction (snake g)))) g = g).
Proof.
  unfold changeDirection. split; [|split].
  - intros [Hx Hy]. apply Z.eqb_eq in Hx, Hy. now rewrite Hx, Hy.
  - intros Hne.
    destruct (Z.eqb_spec (x (direction (snake g))) (GoInt.neg dx));
      destruct (Z.eqb_spec (y (direction (snake g))) (GoInt.neg dy));
      simpl; tauto.
  - intros Hx Hy. rewrite !GoIntFacts.neg_involutive by assumption.
    now rewrite !Z.eqb_refl.
Qed.

(** C3: in a live game whose new head touches or crosses the border
    ([x <= 0], [x >= width-1], [y <= 0] or [y >= height-1]), [update] returns
    with [gameOver] set and with body, direction, food, score, the board
    size and [quit] untouched. *)
Theorem update_border (g : Game) (rs : list Z) (nh : Point) :
  gameOver g = false -> quit g = false ->
  newHead g = Some nh ->
  x nh <= 0 \/ x nh >= GoInt.sub (width g) 1 \/
  y nh <= 0 \/ y nh >= GoInt.sub (height g) 1 ->
  exists g', update g rs = Ret g' rs /\
    gameOver g' = true /\
    snake g' = snake g /\ food g' = food g /\ score g' = score g /\
    width g' = width g /\ height g' = height g /\ quit g' = quit g.
Proof.
  intros Hgo Hq Hnh Hb.
  apply hits_border_true in Hb.
  unfold update, newHead in *. rewrite Hgo, Hq. simpl.
  destruct (body (snake g)) as [|head tl]; [discriminate|].
  injection Hnh as <-. rewrite Hb.
  exists (set_gameOver true g). simpl. tauto.
Qed.

Lemma update_border_witness :
  newHead wallGame = Some (mkPoint 39 10) /\
  exists g', update wallGame [] = Ret g' [] /\
    gameOver g' = true /\
    snake g' = snake wallGame /\ food g' = food wallGame /\
    score g' = score wallGame /\
    width g' = width wallGame /\ height g' = height wallGame /\
    quit g' = quit wallGame.
Proof.
  split; [reflexivity|].
  apply (update_border wallGame [] (mkPoint 39 10));
    [reflexivity | reflexivity | reflexivity | right; left; vm_compute; discriminate].
Defined.

(** C2: in a live game whose new head is strictly inside the border but
    lies on a segment of the body as it is before the move (the tail, which
    this move would vacate, included), [update] returns with [gameOver] set
    and with body, direction, food and score untouched. *)
Theorem update_self_collision (g : Game) (rs : list Z) (nh : Point) :
  gameOver g = false -> quit g = false ->
  newHead g = Some nh ->
  0 < x nh < GoInt.sub (width g) 1 /\ 0 < y nh < GoInt.sub (height g) 1 ->
  In nh (body (snake g)) ->
  exists g', update g rs = Ret g' rs /\
    gameOver g' = true /\
    snake g' = snake g /\ food g' = food g /\ score g' = score g /\
    width g' = width g /\ height g' = height g /\ quit g' = quit g.
Proof.
  intros Hgo Hq Hnh Hb Hin.
  apply hits_border_false in Hb. apply hits_body_In in Hin.
  unfold update, newHead in *. rewrite Hgo, Hq. simpl.
  destruct (body (snake g)) as [|head tl]; [discriminate|].
  injection Hnh as <-. rewrite Hb, Hin.
  exists (set_gameOver true g). simpl. tauto.
Qed.

(** The witness is the move into the cell of the tail. *)
Lemma update_self_collision_witness :
  newHead curledGame = Some (mkPoint 6 5) /\
  List.last (body (snake curledGame)) (mkPoint 0 0) = mkPoint 6 5 /\
  exists g', update curledGame [] = Ret g' [] /\
    gameOver g' = true /\
    snake g' = snake curledGame /\ food g' = food curledGame /\
    score g' = score curledGame /\
    width g' = width curledGame /\ height g' = height curledGame /\
    quit g' = quit curledGame.
Proof.
  split; [reflexivity|]. split; [reflexivity|].
  apply (update_self_collision curledGame [] (mkPoint 6 5));
    [reflexivity | reflexivity | reflexivity | vm_compute; intuition discriminate
    | simpl; tauto].
Defined.

(** ** spawnFood returns a free interior cell *)

(** C6: whenever [spawnFood] returns, the food is on no segment of the
    snake and is an interior cell, [1 <= x <= width-2] and
    [1 <= y <= height-2] with the bounds as the source computes them (they
    are the integer differences whenever these do not overflow); the snake
    and the board size are the ones of the call. *)
Theorem spawnFood_food_placed (g : Game) (rs : list Z) (g' : Game) (rest : list Z) :
  spawnFood g rs = Ret g' rest ->
  ~ In (food g') (body (snake g')) /\
  1 <= x (food g') <= GoInt.sub (width g') 2 /\
  1 <= y (food g') <= GoInt.sub (height g') 2 /\
  (GoInt.in_range (width g' - 2) -> x (food g') <= width g' - 2) /\
  (GoInt.in_range (height g' - 2) -> y (food g') <= height g' - 2) /\
  snake g' = snake g /\ width g' = width g /\ height g' = height g.
Proof.
  intros Hret.
  destruct (spawnFood_break_valid rs g g' rest Hret) as [Hv [Hx Hy]].
  apply food_valid_not_In in Hv.
  assert (Hw : 0 < GoInt.sub (width g) 2).
  { destruct (Z.leb_spec (GoInt.sub (width g) 2) 0) as [Hle|]; [|assumption].
    rewrite spawnFood_panics_narrow in Hret by assumption. discriminate. }
  assert (Hh : 0 < GoInt.sub (height g) 2).
  { destruct (Z.leb_spec (GoInt.sub (height g) 2) 0) as [Hle|]; [|assumption].
    destruct rs as [|a rs]; simpl in Hret; unfold Intn in Hret;
      destruct (Z.leb_spec (GoInt.sub (width g) 2) 0); try lia;
      try discriminate.
    destruct (Z.leb_spec (GoInt.sub (height g) 2) 0); try lia; discriminate. }
  destruct (spawnFood_effect rs g Hw Hh) as (g2 & Hs & Hw' & Hh' & Hsn & _).
  rewrite Hret in Hs. injection Hs as <-.
  repeat split; try assumption; try tauto.
  - intros Hr. unfold GoInt.sub in Hx.
    rewrite GoIntFacts.wrap_small in Hx by assumption. lia.
  - intros Hr. unfold GoInt.sub in Hy.
    rewrite GoIntFacts.wrap_small in Hy by assumption. lia.
Qed.

Lemma spawnFood_food_placed_witness :
  spawnFood startGame [9; 9; 3; 4] = Ret (set_food (mkPoint 4 5) startGame) [] /\
  ~ In (mkPoint 4 5) (body (snake startGame)) /\
  1 <= 4 <= GoInt.sub (width startGame) 2.
Proof.
  split; [reflexivity|].
  pose proof (spawnFood_food_placed startGame [9; 9; 3; 4]
                (set_food (mkPoint 4 5) startGame) [] eq_refl) as H.
  split; [apply H | apply H].
Defined.

(** ** init *)

Lemma init_unfold g rs :
  init g rs =
  andThen (spawnFood (set_snake initialSnake (set_height 20 (set_width 40 g))) rs)
          (fun g2 rest =>
             Ret (set_quit false (set_gameOver false (set_score 0 g2))) rest).
Proof. reflexivity. Qed.

Lemma init_dims g :
  0 < GoInt.sub (width (set_snake initialSnake (set_height 20 (set_width 40 g)))) 2 /\
  0 < GoInt.sub (height (set_snake initialSnake (set_height 20 (set_width 40 g)))) 2.
Proof. split; vm_compute; reflexivity. Qed.

Lemma init_no_panic g rs : init g rs <> Panic.
Proof.
  rewrite init_unfold.
  destruct (init_dims g) as [Hw Hh].
  pose proof (spawnFood_no_panic _ rs Hw Hh) as Hnp.
  destruct (spawnFood _ rs); simpl; congruence.
Qed.

(** What a completed [init] leaves. *)
Lemma init_effect g rs g' rest :
  init g rs = Ret g' rest ->
  width g' = 40 /\ height g' = 20 /\ snake g' = initialSnake /\
  score g' = 0 /\ gameOver g' = false /\ quit g' = false /\
  ~ In (food g') (body (snake g')) /\ interior g' (food g').
Proof.
  rewrite init_unfold.
  destruct (spawnFood _ rs) as [g2 rest2| |g2] eqn:Hsp; simpl; try discriminate.
  intros [= <- <-].
  destruct (init_dims g) as [Hw Hh].
  destruct (spawnFood_effect rs _ Hw Hh) as (g3 & Hs & Hw' & Hh' & Hsn & _).
  rewrite Hsp in Hs. injection Hs as <-.
  destruct (spawnFood_break_valid rs _ _ _ Hsp) as [Hv Hint].
  apply food_valid_not_In in Hv.
  simpl in *. unfold interior in *. simpl. tauto.
Qed.

Lemma init_can_return g rs : exists more, returned (init g (rs ++ more)).
Proof.
  destruct (spawnFood_can_return rs
              (set_snake initialSnake (set_height 20 (set_width 40 g)))
              (mkPoint 1 1)) as (more & g2 & rest & Hret).
  - split; vm_compute; intuition discriminate.
  - simpl. intuition discriminate.
  - exists more. rewrite init_unfold, Hret. simpl. now eexists _, _.
Qed.

(** ** The restart key *)

(** C9: on byte ['r'] (114) or ['R'] (82) the handler leaves a game that is
    not over exactly as it is; in a game that is over it runs [init], which
    never panics, returns once a draw hits a free cell, and then leaves
    score 0, [gameOver] false and the snake in its initial three-segment
    configuration, body [(10,10),(9,10),(8,10)] and direction [(1,0)]. *)
Theorem restart_key (key : Z) (g : Game) (rs : list Z) :
  key = 114 \/ key = 82 ->
  (gameOver g = false -> handleKey key g rs = Ret g rs) /\
  (gameOver g = true ->
     handleKey key g rs <> Panic /\
     (exists more, returned (handleKey key g (rs ++ more))) /\
     forall g' rest, handleKey key g rs = Ret g' rest ->
       score g' = 0 /\ gameOver g' = false /\
       body (snake g') = [mkPoint 10 10; mkPoint 9 10; mkPoint 8 10] /\
       direction (snake g') = mkPoint 1 0).
Proof.
  intros Hkey.
  assert (Hk : forall rs', handleKey key g rs' =
                 if gameOver g then init g rs' else Ret g rs').
  { intros rs'. unfold handleKey. destruct Hkey as [-> | ->]; reflexivity. }
  split; intros Hgo.
  - now rewrite Hk, Hgo.
  - rewrite !Hk. setoid_rewrite Hk. rewrite Hgo.
    split; [apply init_no_panic|]. split; [apply init_can_return|].
    intros g' rest Hret.
    destruct (init_effect _ _ _ _ Hret) as (_ & _ & Hsn & Hsc & Hover & _).
    rewrite Hsn. simpl. tauto.
Qed.

Lemma restart_key_witness :
  handleKey 114 (set_gameOver true wallGame) [0; 0] = Ret startGame [] /\
  handleKey 114 wallGame [0; 0] = Ret wallGame [0; 0].
Proof.
  split.
  - reflexivity.
  - apply (restart_key 114 wallGame [0; 0]); [left; reflexivity | reflexivity].
Defined.


(** ** The invariant of a run *)

Lemma interior_40_20 g p :
  width g = 40 -> height g = 20 ->
  (interior g p <-> 1 <= x p <= 38 /\ 1 <= y p <= 18).
Proof.
  intros Hw Hh. unfold interior. rewrite Hw, Hh.
  change (GoInt.sub 40 2) with 38. change (GoInt.sub 20 2) with 18. tauto.
Qed.

Lemma interior_frame g g' p :
  width g' = width g -> height g' = height g ->
  interior g p -> interior g' p.
Proof. unfold interior. now intros -> ->. Qed.

(** One live tick, as a function of the head. *)
Lemma update_live g rs head tl :
  gameOver g = false -> quit g = false ->
  body (snake g) = head :: tl ->
  update g rs =
  let nh := step_from head (direction (snake g)) in
  if hits_border g nh then Ret (set_gameOver true g) rs
  else if hits_body nh (head :: tl) then Ret (set_gameOver true g) rs
  else if same_cell nh (food g) then
    spawnFood (set_score (GoInt.add (score g) 1)
                         (set_body (nh :: head :: tl) g)) rs
  else Ret (set_body (nh :: removelast (head :: tl)) g) rs.
Proof.
  intros Hgo Hq Hbody. unfold update. rewrite Hgo, Hq, Hbody.
  cbn [orb]. cbv zeta.
  destruct (hits_border _ _); [reflexivity|].
  destruct (hits_body _ _); [reflexivity|].
  cbn [food set_body set_snake score body snake].
  destruct (same_cell _ _); [reflexivity|].
  change (length (head :: tl) - 0)%nat
    with (length (step_from head (direction (snake g)) :: head :: tl) - 1)%nat.
  rewrite (drop_last_cons _ (head :: tl)) by discriminate.
  reflexivity.
Qed.

Lemma In_removelast (p : Point) l : In p (removelast l) -> In p l.
Proof.
  induction l as [|q l IH]; [tauto|].
  simpl. destruct l as [|q' l]; [tauto|].
  intros [->|Hin]; [now left | right; auto].
Qed.

Lemma NoDup_removelast (l : list Point) :
  List.NoDup l -> List.NoDup (removelast l).
Proof.
  induction 1 as [|q l Hnotin Hnd IH]; [constructor|].
  simpl. destruct l as [|q' l]; [constructor|].
  constructor; [|exact IH].
  intros Hin. apply Hnotin. now apply In_removelast.
Qed.

Lemma Forall_removelast (P : Point -> Prop) l :
  Forall P l -> Forall P (removelast l).
Proof.
  rewrite !List.Forall_forall. intros H p Hin. apply H.
  now apply In_removelast.
Qed.

(** Distinct interior cells of the 40 x 20 board: at most 684 of them. *)
Lemma inner_cells_complete p :
  1 <= x p <= 38 /\ 1 <= y p <= 18 -> In p inner_cells.
Proof.
  intros [Hx Hy]. unfold inner_cells. apply in_map_iff.
  exists (x p, y p). split; [now destruct p|].
  apply in_prod; apply list_elem_of_In, elem_of_seqZ; lia.
Qed.

Lemma snake_fits g :
  width g = 40 -> height g = 20 ->
  Forall (interior g) (body (snake g)) -> List.NoDup (body (snake g)) ->
  (length (body (snake g)) <= 684)%nat.
Proof.
  intros Hw Hh Hall Hnd.
  change 684%nat with (length inner_cells).
  apply NoDup_incl_length; [exact Hnd|].
  intros p Hin. apply inner_cells_complete.
  apply (interior_40_20 g p Hw Hh).
  rewrite List.Forall_forall in Hall. now apply Hall.
Qed.

Ltac split_invariant :=
  unfold invariant;
  split; [|split; [|split; [|split; [|split; [|split]]]]].

Lemma invariant_init g0 rs g rest : init g0 rs = Ret g rest -> invariant g.
Proof.
  intros Hret.
  destruct (init_effect _ _ _ _ Hret)
    as (Hw & Hh & Hsn & Hsc & _ & _ & _ & Hfood).
  unfold invariant. rewrite Hsn, Hsc. simpl.
  split; [exact Hw|]. split; [exact Hh|]. split; [lia|].
  split; [|split; [exact Hfood|split; [|reflexivity]]].
  - repeat constructor; apply (interior_40_20 g _ Hw Hh); simpl; lia.
  - repeat constructor; simpl; intuition discriminate.
Qed.

Lemma invariant_turn g dx dy : invariant g -> invariant (changeDirection dx dy g).
Proof.
  unfold changeDirection. destruct (_ && _); [tauto|].
  unfold invariant, interior. simpl. tauto.
Qed.

(** [spawnFood] keeps the invariant, whether it has returned or not. *)
Lemma invariant_spawn g rs g' :
  invariant g -> state_of (spawnFood g rs) = Some g' -> invariant g'.
Proof.
  intros (Hw & Hh & Hlen & Hall & Hfood & Hnd & Hsc) Hs.
  destruct (spawnFood_effect rs g) as (g2 & Hs2 & Hw' & Hh' & Hsn & Hsc' & _ & _ & Hf).
  { rewrite Hw. vm_compute. reflexivity. }
  { rewrite Hh. vm_compute. reflexivity. }
  rewrite Hs in Hs2. injection Hs2 as <-.
  split_invariant; rewrite ?Hsn, ?Hsc', ?Hw', ?Hh'; try assumption.
  - eapply Forall_impl; [exact Hall|].
    intros p. now apply interior_frame.
  - destruct Hf as [-> | Hf]; [|exact Hf].
    now apply (interior_frame g).
Qed.

(** A tick keeps the invariant, also while its [spawnFood] is looping. *)
Lemma invariant_update g rs g' :
  invariant g -> state_of (update g rs) = Some g' -> invariant g'.
Proof.
  intros Hinv Hs.
  destruct (gameOver g || quit g) eqn:Hstop.
  { unfold update in Hs. rewrite Hstop in Hs. injection Hs as <-. exact Hinv. }
  apply orb_false_iff in Hstop. destruct Hstop as [Hgo Hq].
  pose proof Hinv as (Hw & Hh & Hlen & Hall & Hfood & Hnd & Hsc).
  destruct (body (snake g)) as [|head tl] eqn:Hbody; [simpl in Hlen; lia|].
  rewrite (update_live g rs head tl Hgo Hq Hbody) in Hs. cbv zeta in Hs.
  set (nh := step_from head (direction (snake g))) in *.
  remember (removelast (head :: tl)) as rl eqn:Hrl.
  destruct (hits_border g nh) eqn:Hb.
  { injection Hs as <-. unfold invariant, interior. simpl. rewrite Hbody.
    unfold invariant, interior in Hinv. rewrite Hbody in Hinv. exact Hinv. }
  destruct (hits_body nh (head :: tl)) eqn:Hself.
  { injection Hs as <-. unfold invariant, interior. simpl. rewrite Hbody.
    unfold invariant, interior in Hinv. rewrite Hbody in Hinv. exact Hinv. }
  apply hits_border_false in Hb. rewrite Hw, Hh in Hb.
  change (GoInt.sub 40 1) with 39 in Hb. change (GoInt.sub 20 1) with 19 in Hb.
  apply hits_body_not_In in Hself.
  assert (Hnh : interior g nh) by (apply interior_40_20; [assumption..|lia]).
  assert (Hnd' : List.NoDup (nh :: head :: tl))
    by (constructor; [exact Hself | exact Hnd]).
  destruct (same_cell nh (food g)) eqn:Heat.
  - refine (invariant_spawn _ rs g' _ Hs).
    assert (Hfit : (length (nh :: head :: tl) <= 684)%nat).
    { apply (snake_fits (set_body (nh :: head :: tl) g)); simpl; auto. }
    split_invariant; cbn [width height snake body food score set_score
      set_body set_snake]; try assumption.
    + simpl in *; lia.
    + constructor; [exact Hnh | exact Hall].
    + rewrite GoIntFacts.add_one_small;
        unfold GoInt.min_int, GoInt.max_int, GoInt.bits; simpl in *; lia.
  - assert (Hl : S (length rl) = length (head :: tl))
      by (subst rl; apply length_removelast; discriminate).
    assert (Hsub : forall p, In p rl -> In p (head :: tl))
      by (subst rl; intros p; apply In_removelast).
    assert (Hrnd : List.NoDup rl) by (subst rl; now apply NoDup_removelast).
    assert (Hrall : Forall (interior g) rl)
      by (subst rl; now apply Forall_removelast).
    clear Hrl. injection Hs as <-.
    split_invariant; cbn [width height snake body food score
      set_body set_snake length]; try assumption.
    + simpl in *; lia.
    + constructor; [exact Hnh | exact Hrall].
    + constructor; [|exact Hrnd].
      intros Hin. apply Hself. now apply Hsub.
    + simpl in *; lia.
Qed.

Lemma reachable_invariant g : reachable g -> invariant g.
Proof.
  induction 1 as [g0 rs g rest Hinit
                 | g rs g' rest _ IH Hup
                 | g dx dy _ IH
                 | g rs g' rest _ IH Hsp].
  - exact (invariant_init _ _ _ _ Hinit).
  - apply (invariant_update g rs); [exact IH | now rewrite Hup].
  - now apply invariant_turn.
  - apply (invariant_spawn g rs); [exact IH | now rewrite Hsp].
Qed.

(** ** render stays inside the board *)

Lemma blank_board_dims g :
  0 <= height g -> 0 <= width g ->
  exists board, blank_board g = Some board /\
    has_dims (Z.to_nat (height g)) (Z.to_nat (width g)) board.
Proof.
  intros Hh Hw. unfold blank_board.
  destruct (Z.ltb_spec (height g) 0); [lia|].
  destruct (Z.ltb_spec (width g) 0); [lia|].
  rewrite andb_false_r. eexists. split; [reflexivity|].
  split.
  - now rewrite length_map, length_seqZ.
  - apply List.Forall_forall. intros line Hin.
    apply in_map_iff in Hin. destruct Hin as (i & <- & _).
    now rewrite length_map, length_seqZ.
Qed.

Section Board.

(** The size of the board [render] works on. *)
Variables h w : nat.

Lemma store_in_bounds board row col r :
  has_dims h w board ->
  0 <= row < Z.of_nat h -> 0 <= col < Z.of_nat w ->
  exists board', store row col r board = Some board' /\ has_dims h w board'.
Proof.
  intros [Hlen Hrows] Hrow Hcol. unfold store.
  destruct (Z.ltb_spec row 0); [lia|].
  destruct (Z.leb_spec (Z.of_nat (length board)) row); [lia|].
  cbn [orb].
  destruct (lookup_lt_is_Some_2 board (Z.to_nat row)) as [line Hline]; [lia|].
  rewrite Hline.
  assert (Hll : length line = w) by exact (Forall_lookup_1 _ _ _ _ Hrows Hline).
  destruct (Z.ltb_spec col 0); [lia|].
  destruct (Z.leb_spec (Z.of_nat (length line)) col); [lia|].
  cbn [orb]. eexists. split; [reflexivity|].
  split.
  - now rewrite length_insert.
  - apply Forall_insert; [exact Hrows|]. now rewrite length_insert.
Qed.

Lemma draw_snake_in_bounds segments : forall board,
  has_dims h w board ->
  Forall (fun p => 0 <= y p < Z.of_nat h /\ 0 <= x p < Z.of_nat w) segments ->
  exists board', draw_snake segments board = Some board'.
Proof.
  induction segments as [|p segments IH]; intros board Hd Hall.
  - now exists board.
  - apply Forall_cons in Hall. destruct Hall as [[Hy Hx] Hall].
    destruct (store_in_bounds board (y p) (x p) glyph_snake Hd Hy Hx)
      as (board' & Hst & Hd').
    simpl. rewrite Hst. now apply IH.
Qed.

End Board.

Lemma render_in_bounds g :
  invariant g -> exists board, render_board g = Some board.
Proof.
  intros (Hw & Hh & _ & Hall & Hfood & _).
  destruct (blank_board_dims g) as (b0 & Hb0 & Hd0); [lia..|].
  unfold render_board. rewrite Hb0.
  apply (interior_40_20 g _ Hw Hh) in Hfood.
  destruct (store_in_bounds _ _ b0 (y (food g)) (x (food g)) glyph_food Hd0)
    as (b1 & Hb1 & Hd1); [lia..|].
  rewrite Hb1.
  apply (draw_snake_in_bounds _ _ _ b1 Hd1).
  eapply Forall_impl; [exact Hall|].
  intros p Hp. apply (interior_40_20 g _ Hw Hh) in Hp. lia.
Qed.

(** C10: in every state reachable from [init] by calls of [update],
    [changeDirection] and [spawnFood], the body has at least three segments,
    every segment and the food lie strictly inside the border
    ([1 <= x <= width-2], [1 <= y <= height-2]); hence [update] does not
    panic on [body[0]] and [render] builds its board without an index out
    of range. *)
Theorem reachable_safe (g : Game) :
  reachable g ->
  (3 <= length (body (snake g)))%nat /\
  (forall p, In p (body (snake g)) ->
     1 <= x p <= width g - 2 /\ 1 <= y p <= height g - 2) /\
  (1 <= x (food g) <= width g - 2 /\ 1 <= y (food g) <= height g - 2) /\
  (forall rs, update g rs <> Panic) /\
  (exists board, render_board g = Some board).
Proof.
  intros Hreach. pose proof (reachable_invariant g Hreach) as Hinv.
  pose proof Hinv as (Hw & Hh & Hlen & Hall & Hfood & _).
  split; [exact Hlen|]. split; [|split; [|split]].
  - intros p Hin. rewrite List.Forall_forall in Hall.
    apply Hall, (interior_40_20 g _ Hw Hh) in Hin. lia.
  - apply (interior_40_20 g _ Hw Hh) in Hfood. lia.
  - intros rs Hpanic.
    destruct (gameOver g || quit g) eqn:Hstop.
    { unfold update in Hpanic. rewrite Hstop in Hpanic. discriminate. }
    apply orb_false_iff in Hstop. destruct Hstop as [Hgo Hq].
    destruct (body (snake g)) as [|head tl] eqn:Hbody; [simpl in Hlen; lia|].
    rewrite (update_live g rs head tl Hgo Hq Hbody) in Hpanic.
    cbv zeta in Hpanic.
    destruct (hits_border _ _) eqn:Hb; [discriminate|].
    destruct (hits_body _ _); [discriminate|].
    destruct (same_cell _ _); [|discriminate].
    revert Hpanic. apply spawnFood_no_panic; simpl; rewrite ?Hw, ?Hh;
      vm_compute; reflexivity.
  - now apply render_in_bounds.
Qed.

Lemma reachable_safe_witness :
  reachable startGame /\ (3 <= length (body (snake startGame)))%nat.
Proof.
  assert (Hr : reachable startGame)
    by (apply (reach_init zeroGame [0; 0] startGame []); reflexivity).
  split; [exact Hr | apply (reachable_safe startGame Hr)].
Defined.

(** In a reachable state the score has room to grow: eating the food adds
    one to it as an integer, not only modulo the word size. *)
Lemma reachable_score_bounded g :
  reachable g -> 0 <= score g <= 681.
Proof.
  intros Hreach.
  destruct (reachable_invariant g Hreach) as (Hw & Hh & Hlen & Hall & _ & Hnd & Hsc).
  pose proof (snake_fits g Hw Hh Hall Hnd). lia.
Qed.

Lemma reachable_score_step g :
  reachable g -> GoInt.add (score g) 1 = score g + 1.
Proof.
  intros Hreach. pose proof (reachable_score_bounded g Hreach).
  apply GoIntFacts.add_one_small.
  unfold GoInt.min_int, GoInt.max_int, GoInt.bits. lia.
Qed.

(** ** A tick that moves the snake *)

(** C1: in a live game whose new head is strictly inside the border and on
    no segment of the body, [update] does not panic and leaves a game in
    which, when the new head is the food cell, the body is the old body with
    the new head in front (one segment longer) and the score is the old
    score plus one (the [+= 1] of the 64-bit [int]: the integer successor
    whenever the score is below the largest [int], as it is in every
    reachable state); and otherwise [update]
    returns, the body is the new head followed by the old body without its
    last segment (same length) and the score is unchanged.  In the first
    case [update] goes on into [spawnFood] and returns as soon as a draw
    hits a free interior cell. *)
Theorem update_move (g : Game) (rs : list Z) (nh : Point) :
  gameOver g = false -> quit g = false ->
  newHead g = Some nh ->
  0 < x nh < GoInt.sub (width g) 1 /\ 0 < y nh < GoInt.sub (height g) 1 ->
  ~ In nh (body (snake g)) ->
  exists g', state_of (update g rs) = Some g' /\
    (nh = food g ->
       length (body (snake g')) = S (length (body (snake g))) /\
       body (snake g') = nh :: body (snake g) /\
       score g' = GoInt.add (score g) 1 /\
       (GoInt.min_int <= score g < GoInt.max_int -> score g' = score g + 1) /\
       (reachable g -> score g' = score g + 1) /\
       ((exists p, interior g p /\ ~ In p (nh :: body (snake g))) ->
        exists more, returned (update g (rs ++ more)))) /\
    (nh <> food g ->
       update g rs = Ret g' rs /\
       body (snake g') = nh :: removelast (body (snake g)) /\
       length (body (snake g')) = length (body (snake g)) /\
       score g' = score g).
Proof.
  intros Hgo Hq Hnh Hb Hfree.
  pose proof Hb as [Hbx Hby].
  apply hits_border_false in Hb. apply hits_body_not_In in Hfree.
  unfold update, newHead in *. rewrite Hgo, Hq. simpl.
  destruct (body (snake g)) as [|head tl] eqn:Hbody; [discriminate|].
  injection Hnh as <-. rewrite Hb, Hfree.
  set (nh := step_from head (direction (snake g))) in *.
  destruct (same_cell nh (food g)) eqn:Hfood.
  - apply same_cell_eq in Hfood.
    set (g1 := set_score _ _).
    assert (Hw : 0 < GoInt.sub (width g1) 2)
      by (apply (GoIntFacts.inner_width_pos _ (x nh)); exact Hbx).
    assert (Hh : 0 < GoInt.sub (height g1) 2)
      by (apply (GoIntFacts.inner_width_pos _ (y nh)); exact Hby).
    destruct (spawnFood_effect rs g1 Hw Hh)
      as (g' & Hs & _ & _ & Hsn & Hsc & _).
    exists g'. split; [exact Hs|]. split; [|congruence].
    intros _. rewrite Hsn, Hsc. simpl.
    repeat split; try reflexivity.
    + intros Hr. now apply GoIntFacts.add_one_small.
    + apply reachable_score_step.
    + intros (p & Hp & Hpfree). now apply (spawnFood_can_return rs g1 p).
  - apply same_cell_neq in Hfood.
    eexists. split; [reflexivity|]. split; [congruence|].
    intros _.
    change (length (head :: tl) - 0)%nat
      with (length (nh :: head :: tl) - 1)%nat.
    rewrite (drop_last_cons nh (head :: tl)) by discriminate.
    cbn [body snake set_body set_snake score].
    repeat split; try reflexivity.
    cbn [length]. apply length_removelast. discriminate.
Qed.

Lemma update_move_witness :
  newHead feedingGame = Some (mkPoint 11 10) /\
  exists g', state_of (update feedingGame [3; 4]) = Some g' /\
    (mkPoint 11 10 = food feedingGame ->
       length (body (snake g')) = S (length (body (snake feedingGame))) /\
       body (snake g') = mkPoint 11 10 :: body (snake feedingGame) /\
       score g' = GoInt.add (score feedingGame) 1 /\
       (GoInt.min_int <= score feedingGame < GoInt.max_int ->
        score g' = score feedingGame + 1) /\
       (reachable feedingGame -> score g' = score feedingGame + 1) /\
       ((exists p, interior feedingGame p /\
                   ~ In p (mkPoint 11 10 :: body (snake feedingGame))) ->
        exists more, returned (update feedingGame ([3; 4] ++ more)))) /\
    (mkPoint 11 10 <> food feedingGame ->
       update feedingGame [3; 4] = Ret g' [3; 4] /\
       body (snake g') = mkPoint 11 10 :: removelast (body (snake feedingGame)) /\
       length (body (snake g')) = length (body (snake feedingGame)) /\
       score g' = score feedingGame).
Proof.
  split; [reflexivity|].
  apply (update_move feedingGame [3; 4] (mkPoint 11 10));
    [reflexivity | reflexivity | reflexivity
    | vm_compute; intuition discriminate
    | simpl; intuition discriminate].
Defined.

(** ** The retry loop under a uniform source *)

Lemma looping_food_irrelevant rs : forall g p,
  still_looping (spawnFood (set_food p g) rs) = still_looping (spawnFood g rs).
Proof.
  induction rs as [| a | a b rs IH] using pairs_ind; intros g p;
    simpl; unfold Intn; simpl.
  - destruct (_ <=? _); reflexivity.
  - destruct (_ <=? _); [reflexivity|]. destruct (_ <=? _); reflexivity.
  - destruct (_ <=? _); [reflexivity|]. destruct (_ <=? _); [reflexivity|].
    reflexivity.
Qed.

(** After one round the loop has returned or is where it started. *)
Lemma looping_round g a b t :
  0 < GoInt.sub (width g) 2 -> 0 < GoInt.sub (height g) 2 ->
  still_looping (spawnFood g (a :: b :: t)) =
  negb (food_valid (set_food (drawn_cell g (a, b)) g))
  && still_looping (spawnFood g t).
Proof.
  intros Hw Hh. rewrite spawnFood_round by assumption. cbv zeta.
  change (mkPoint _ _) with (drawn_cell g (a, b)).
  destruct (food_valid _); simpl; [reflexivity|].
  apply looping_food_irrelevant.
Qed.

Lemma length_flat_map_const {A B C} (h : A -> B -> C) (ds : list B) (l : list A) :
  length (flat_map (fun a => map (h a) ds) l) = (length l * length ds)%nat.
Proof.
  induction l as [|a l IHl]; [reflexivity|].
  cbn [flat_map length]. rewrite length_app, length_map, IHl. lia.
Qed.

Lemma length_draws g k :
  length (draws g k) = (length (round_draws g) ^ k)%nat.
Proof.
  induction k as [|k IH]; [reflexivity|].
  cbn [draws Nat.pow]. rewrite <- IH.
  apply (length_flat_map_const (fun ab t => fst ab :: snd ab :: t)).
Qed.

Lemma looping_after_round g a b (ds : list (list Z)) :
  0 < GoInt.sub (width g) 2 -> 0 < GoInt.sub (height g) 2 ->
  length (List.filter (fun rs => still_looping (spawnFood g rs))
            (map (fun t => a :: b :: t) ds)) =
  if food_valid (set_food (drawn_cell g (a, b)) g) then 0%nat
  else length (List.filter (fun rs => still_looping (spawnFood g rs)) ds).
Proof.
  intros Hw Hh.
  induction ds as [|t ds IHds].
  - now destruct (food_valid _).
  - cbn [map List.filter]. rewrite looping_round by assumption.
    destruct (food_valid (set_food (drawn_cell g (a, b)) g)); cbn [negb andb].
    + exact IHds.
    + destruct (still_looping (spawnFood g t)); cbn [length]; now rewrite IHds.
Qed.

Lemma looping_count_step g k :
  0 < GoInt.sub (width g) 2 -> 0 < GoInt.sub (height g) 2 ->
  looping_count g (S k) = (length (occupied_draws g) * looping_count g k)%nat.
Proof.
  intros Hw Hh. unfold looping_count, occupied_draws. cbn [draws].
  induction (round_draws g) as [|[a b] l IHl]; [reflexivity|].
  cbn [flat_map List.filter fst snd].
  rewrite List.filter_app, length_app, IHl, looping_after_round by assumption.
  destruct (food_valid (set_food (drawn_cell g (a, b)) g));
    cbn [negb length]; lia.
Qed.

Lemma looping_count_pow g k :
  0 < GoInt.sub (width g) 2 -> 0 < GoInt.sub (height g) 2 ->
  looping_count g k = (length (occupied_draws g) ^ k)%nat.
Proof.
  intros Hw Hh. induction k as [|k IH].
  - unfold looping_count. cbn [draws List.filter].
    now rewrite spawnFood_nil.
  - rewrite looping_count_step by assumption. now rewrite IH.
Qed.

Lemma filter_shorter {A} (f : A -> bool) (l : list A) (a : A) :
  In a l -> f a = false -> (length (List.filter f l) < length l)%nat.
Proof.
  intros Hin Hf. induction l as [|b l IH]; [contradiction|].
  pose proof (List.filter_length_le f l) as Hle.
  destruct Hin as [-> | Hin]; simpl.
  - rewrite Hf. lia.
  - specialize (IH Hin). destruct (f b); simpl; lia.
Qed.

(** A free interior cell is the image of a pair the loop can draw. *)
Lemma free_cell_drawn g p :
  interior g p -> ~ In p (body (snake g)) ->
  In (x p - 1, y p - 1) (round_draws g) /\
  food_valid (set_food (drawn_cell g (x p - 1, y p - 1)) g) = true.
Proof.
  intros [Hx Hy] Hfree. split.
  - unfold round_draws. apply in_prod; apply list_elem_of_In, elem_of_seqZ; lia.
  - unfold drawn_cell. cbn [fst snd].
    rewrite !GoIntFacts.draw_shift_inv by auto using GoIntFacts.sub_in_range.
    apply food_valid_not_In. simpl. now destruct p.
Qed.

Lemma occupied_fewer g p :
  interior g p -> ~ In p (body (snake g)) ->
  (length (occupied_draws g) < length (round_draws g))%nat.
Proof.
  intros Hp Hfree. destruct (free_cell_drawn g p Hp Hfree) as [Hin Hv].
  unfold occupied_draws.
  apply (filter_shorter _ _ (x p - 1, y p - 1) Hin). now rewrite Hv.
Qed.

(** The ratio [b^k / n^k] falls below any [1/M] when [b < n]. *)
Lemma pow_gap (b k : nat) : ((b + k) * b ^ k <= b * (b + 1) ^ k)%nat.
Proof.
  induction k as [|k IH]; [simpl; lia|].
  cbn [Nat.pow].
  transitivity ((b + 1) * ((b + k) * b ^ k))%nat; [nia|].
  transitivity ((b + 1) * (b * (b + 1) ^ k))%nat; [|lia].
  apply Nat.mul_le_mono_l. exact IH.
Qed.

Lemma pow_ratio_vanishes (b n M k : nat) :
  (b < n)%nat -> (M * b + 1 <= k)%nat -> (M * b ^ k <= n ^ k)%nat.
Proof.
  intros Hbn Hk.
  transitivity ((b + 1) ^ k)%nat; [|apply Nat.pow_le_mono_l; lia].
  destruct b as [|b].
  - destruct k as [|k]; [lia|]. simpl. lia.
  - pose proof (pow_gap (S b) k) as Hgap.
    assert (Hpos : (M * S b * S b ^ k <= (S b + k) * S b ^ k)%nat)
      by (apply Nat.mul_le_mono_r; lia).
    assert (Hm : (S b * (M * S b ^ k) <= S b * (S b + 1) ^ k)%nat) by lia.
    now apply Nat.mul_le_mono_pos_l in Hm; [|lia].
Qed.

(** Draws that keep landing on the snake keep the loop going. *)
Lemma repeat_draw_loops q k : forall g,
  interior g q -> In q (body (snake g)) ->
  length (repeat_draw (x q - 1) (y q - 1) k) = (2 * k)%nat /\
  still_looping (spawnFood g (repeat_draw (x q - 1) (y q - 1) k)) = true.
Proof.
  induction k as [|k IH]; intros g Hq Hin.
  - destruct Hq as [Hx Hy]. split; [reflexivity|].
    simpl repeat_draw. now rewrite spawnFood_nil by lia.
  - pose proof Hq as [Hx Hy].
    destruct (IH g Hq Hin) as [Hlen Hloop].
    split; [simpl; lia|].
    cbn [repeat_draw]. rewrite looping_round by lia. rewrite Hloop.
    unfold drawn_cell. cbn [fst snd].
    rewrite !GoIntFacts.draw_shift_inv by auto using GoIntFacts.sub_in_range.
    assert (Hv : food_valid (set_food (mkPoint (x q) (y q)) g) = false).
    { apply not_true_is_false. intros Hv. apply food_valid_not_In in Hv.
      apply Hv. simpl. now destruct q. }
    now rewrite Hv.
Qed.

(** [round_draws] is the set of pairs [rand.Intn] can deliver in one
    round. *)
Lemma round_draws_spec g a b :
  In (a, b) (round_draws g) <->
  0 <= a < GoInt.sub (width g) 2 /\ 0 <= b < GoInt.sub (height g) 2.
Proof.
  unfold round_draws. rewrite in_prod_iff, <- !list_elem_of_In, !elem_of_seqZ.
  lia.
Qed.

Lemma length_round_draws g :
  length (round_draws g) =
  (Z.to_nat (GoInt.sub (width g) 2) * Z.to_nat (GoInt.sub (height g) 2))%nat.
Proof. unfold round_draws. now rewrite length_prod, !length_seqZ. Qed.

(** [draws g k] lists exactly the valid sequences, each of them once. *)
Lemma draws_spec g k : forall rs, In rs (draws g k) <-> valid_draws g k rs.
Proof.
  induction k as [|k IH]; intros rs.
  - simpl. destruct rs; intuition congruence.
  - cbn [draws]. rewrite in_flat_map. split.
    + intros ([a b] & Hab & Hin). apply in_map_iff in Hin.
      destruct Hin as (t & <- & Ht). cbn [fst snd valid_draws].
      split; [now apply round_draws_spec | now apply IH].
    + destruct rs as [|a [|b t]]; cbn [valid_draws]; try tauto.
      intros [Hab Ht]. exists (a, b). split; [now apply round_draws_spec|].
      apply in_map_iff. exists t. split; [reflexivity | now apply IH].
Qed.

Lemma NoDup_flat_map_apart {A B} (f : A -> list B) (l : list A) :
  List.NoDup l -> (forall a, In a l -> List.NoDup (f a)) ->
  (forall a a' b, In a l -> In a' l -> In b (f a) -> In b (f a') -> a = a') ->
  List.NoDup (flat_map f l).
Proof.
  induction 1 as [|a l Hnotin Hnd IH]; intros Heach Hapart; [constructor|].
  cbn [flat_map]. apply List.NoDup_app.
  - apply Heach. now left.
  - apply IH.
    + intros a' Ha'. apply Heach. now right.
    + intros a1 a2 b H1 H2. apply Hapart; now right.
  - intros b Hb Hb'. apply in_flat_map in Hb'. destruct Hb' as (a' & Ha' & Hb').
    apply Hnotin. rewrite (Hapart a a' b); auto; [now left | now right].
Qed.

Lemma NoDup_map_injective {A B} (f : A -> B) (l : list A) :
  (forall a a', f a = f a' -> a = a') -> List.NoDup l -> List.NoDup (map f l).
Proof.
  intros Hinj. induction 1 as [|a l Hnotin Hnd IH]; [constructor|].
  cbn [map]. constructor; [|exact IH].
  intros Hin. apply in_map_iff in Hin. destruct Hin as (a' & Heq & Ha').
  apply Hinj in Heq. now subst.
Qed.

Lemma NoDup_round_draws g : List.NoDup (round_draws g).
Proof.
  unfold round_draws.
  assert (Hx : List.NoDup (seqZ 0 (GoInt.sub (width g) 2)))
    by apply NoDup_ListNoDup, NoDup_seqZ.
  assert (Hy : List.NoDup (seqZ 0 (GoInt.sub (height g) 2)))
    by apply NoDup_ListNoDup, NoDup_seqZ.
  revert Hx Hy. generalize (seqZ 0 (GoInt.sub (width g) 2)) as xs.
  generalize (seqZ 0 (GoInt.sub (height g) 2)) as ys. intros ys xs Hx Hy.
  induction Hx as [|a xs Hnotin Hx IH]; [constructor|].
  cbn [list_prod]. apply List.NoDup_app.
  - apply NoDup_map_injective; [congruence | exact Hy].
  - exact IH.
  - intros [a0 b0] H1 H2. apply in_map_iff in H1.
    destruct H1 as (? & [= <- _] & _).
    apply in_prod_iff in H2. now apply Hnotin.
Qed.

Lemma NoDup_draws g k : List.NoDup (draws g k).
Proof.
  induction k as [|k IH]; [repeat constructor; simpl; tauto|].
  cbn [draws]. apply NoDup_flat_map_apart; [apply NoDup_round_draws | |].
  - intros ab _. apply NoDup_map_injective; [congruence | exact IH].
  - intros [a b] [a' b'] rs _ _ H1 H2.
    apply in_map_iff in H1, H2. cbn [fst snd] in *.
    destruct H1 as (t & <- & _). destruct H2 as (t' & [= -> ->] & _).
    reflexivity.
Qed.

(** C7: in a game with a free interior cell [spawnFood] never panics, and
    whatever it has drawn so far some continuation of the draws makes it
    return.  [draws g k] lists the draw sequences of [k] rounds, each
    once; under a uniform source they are equally likely.  Of these [n^k]
    sequences ([n] the number of pairs a round can draw) exactly [b^k] leave the loop
    running ([b] the number of pairs that land on the snake), and [b < n]:
    the share of sequences still looping after [k] rounds drops below
    [1/M] for every [M], so the loop ends with probability 1.  No bound on
    the number of rounds is built in: as long as a segment lies in the
    interior, for every [k] some draws keep the loop running for [k]
    rounds. *)
Theorem spawnFood_terminates_almost_surely (g : Game) (p : Point) :
  interior g p -> ~ In p (body (snake g)) ->
  (forall rs, spawnFood g rs <> Panic) /\
  (forall rs, exists more, returned (spawnFood g (rs ++ more))) /\
  (forall k rs, In rs (draws g k) <-> valid_draws g k rs) /\
  (forall k, List.NoDup (draws g k)) /\
  (forall k, length (draws g k) = (length (round_draws g) ^ k)%nat /\
             looping_count g k = (length (occupied_draws g) ^ k)%nat) /\
  (length (occupied_draws g) < length (round_draws g))%nat /\
  (forall M, exists k0, forall k, (k0 <= k)%nat ->
     (M * looping_count g k <= length (draws g k))%nat) /\
  (forall q, In q (body (snake g)) -> interior g q ->
     forall k, exists rs, length rs = (2 * k)%nat /\
                          still_looping (spawnFood g rs) = true).
Proof.
  intros Hp Hfree. pose proof Hp as [Hx Hy].
  assert (Hw : 0 < GoInt.sub (width g) 2) by lia.
  assert (Hh : 0 < GoInt.sub (height g) 2) by lia.
  pose proof (occupied_fewer g p Hp Hfree) as Hlt.
  split; [intros rs; now apply spawnFood_no_panic|].
  split; [intros rs; now apply (spawnFood_can_return rs g p)|].
  split; [intros k rs; apply draws_spec|].
  split; [intros k; apply NoDup_draws|].
  split; [intros k; split;
          [apply length_draws | now apply looping_count_pow]|].
  split; [exact Hlt|].
  split.
  - intros M. exists (M * length (occupied_draws g) + 1)%nat. intros k Hk.
    rewrite length_draws, looping_count_pow by assumption.
    now apply pow_ratio_vanishes.
  - intros q Hin Hq k.
    exists (repeat_draw (x q - 1) (y q - 1) k).
    now apply repeat_draw_loops.
Qed.

Lemma spawnFood_terminates_almost_surely_witness :
  interior startGame (mkPoint 1 1) /\
  (length (occupied_draws startGame) < length (round_draws startGame))%nat.
Proof.
  assert (Hp : interior startGame (mkPoint 1 1))
    by (split; vm_compute; intuition discriminate).
  split; [exact Hp|].
  apply (spawnFood_terminates_almost_surely startGame (mkPoint 1 1) Hp).
  simpl. intuition discriminate.
Defined.

(** ** Turning twice between two ticks *)

(** C5 (the code departs from it): Up and then Left, both between two
    ticks of the snake that [init] set heading right, are both accepted by
    [changeDirection], each not being the reverse of the direction current
    at its call.  The second tick then reads direction [(-1,0)], the exact
    reverse of the [(1,0)] the first tick used; its new head is the neck
    [(10,10)] and the tick ends the game. *)
Theorem double_turn_reverses :
  init zeroGame [0; 0] = Ret startGame [] /\
  tick_directions doubleTurn startGame [] = [mkPoint 1 0; mkPoint (-1) 0] /\
  reverse_of (mkPoint (-1) 0) (mkPoint 1 0) = true /\
  no_reversal (tick_directions doubleTurn startGame []) = false /\
  (forall g1 rs, quit g1 = false ->
     handleInput doubleTurnKeys g1 rs = run [Turn 0 (-1); Turn (-1) 0] g1 rs) /\
  exists g', run doubleTurn startGame [] = Ret g' [] /\
    gameOver g' = true /\
    direction (snake g') = mkPoint (-1) 0 /\
    body (snake g') = [mkPoint 11 10; mkPoint 10 10; mkPoint 9 10].
Proof.
  split; [reflexivity|]. split; [reflexivity|]. split; [reflexivity|].
  split; [reflexivity|]. split.
  - intros g1 rs Hq. unfold doubleTurnKeys.
    cbn [handleInput run do_event andThen]. rewrite Hq.
    change (27 =? 27) with true. cbv iota.
    assert (Hq' : quit (escape 91 65 g1) = false).
    { unfold escape, arrow, changeDirection. simpl.
      destruct (_ && _); assumption. }
    rewrite Hq'.
    assert (Hq2 : quit (escape 91 68 (escape 91 65 g1)) = false).
    { unfold escape at 1. unfold arrow, changeDirection. simpl.
      destruct (_ && _); assumption. }
    rewrite Hq2. reflexivity.
  - eexists. split; [reflexivity|]. repeat split.
Qed.

(** In general a tick that reads the exact reverse of the direction of the
    move before it steps onto the neck: it is never applied, it ends the
    game. *)
Lemma reversed_tick_ends_game g rs head neck tl dprev :
  invariant g -> gameOver g = false -> quit g = false ->
  body (snake g) = head :: neck :: tl ->
  head = step_from neck dprev ->
  reverse_of (direction (snake g)) dprev = true ->
  update g rs = Ret (set_gameOver true g) rs.
Proof.
  intros (Hw & Hh & _ & Hall & _) Hgo Hq Hbody Hhead Hrev.
  rewrite (update_live g rs head (neck :: tl) Hgo Hq Hbody). cbv zeta.
  rewrite Hbody in Hall.
  apply Forall_cons in Hall. destruct Hall as [_ Hall].
  apply Forall_cons in Hall. destruct Hall as [Hneck _].
  apply (interior_40_20 g _ Hw Hh) in Hneck.
  assert (Hback : step_from head (direction (snake g)) = neck).
  { unfold reverse_of in Hrev. apply andb_true_iff in Hrev.
    destruct Hrev as [Hrx Hry]. apply Z.eqb_eq in Hrx, Hry.
    subst head. unfold step_from. simpl. rewrite Hrx, Hry.
    destruct neck as [nx ny]. simpl in *. f_equal; GoIntFacts.int_arith. }
  rewrite Hback.
  assert (Hb : hits_border g neck = false).
  { apply hits_border_false. rewrite Hw, Hh.
    change (GoInt.sub 40 1) with 39. change (GoInt.sub 20 1) with 19. lia. }
  assert (Hs : hits_body neck (head :: neck :: tl) = true)
    by (apply hits_body_In; simpl; tauto).
  now rewrite Hb, Hs.
Qed.

(** ** The opening move *)

(** From the initial snake heading right, one tick with the food elsewhere
    gives body [(11,10),(10,10),(9,10)] and leaves the game running. *)
Example first_tick :
  update startGame [] =
  Ret (set_body [mkPoint 11 10; mkPoint 10 10; mkPoint 9 10] startGame) [].
Proof. reflexivity. Qed.

(** * Further properties of the code *)

(** ** When the game code panics *)

(** A returned [spawnFood] has replaced the food and nothing else. *)
Lemma spawnFood_ret_food_only rs : forall g g' rest,
  spawnFood g rs = Ret g' rest -> g' = set_food (food g') g.
Proof.
  induction rs as [| a | a b rs IH] using pairs_ind; intros g g' rest.
  - simpl. unfold Intn. destruct (_ <=? _); discriminate.
  - simpl. unfold Intn. repeat destruct (_ <=? _); discriminate.
  - simpl. unfold Intn.
    destruct (_ <=? _); [discriminate|].
    destruct (_ <=? _); [discriminate|].
    destruct (food_valid _).
    + now intros [= <- <-].
    + intros Hret. apply IH in Hret. exact Hret.
Qed.

(** X1: [update] panics exactly when it is called on a live game (neither
    over nor quit) whose body is empty: the index [body[0]] is then out of
    range.  No other path of [update] panics, the call of [spawnFood]
    included. *)
Theorem update_panics_iff (g : Game) (rs : list Z) :
  update g rs = Panic <->
  gameOver g = false /\ quit g = false /\ body (snake g) = [].
Proof.
  split.
  - intros Hpanic.
    destruct (gameOver g || quit g) eqn:Hstop.
    { unfold update in Hpanic. rewrite Hstop in Hpanic. discriminate. }
    apply orb_false_iff in Hstop. destruct Hstop as [Hgo Hq].
    destruct (body (snake g)) as [|head tl] eqn:Hbody; [tauto|].
    exfalso.
    rewrite (update_live g rs head tl Hgo Hq Hbody) in Hpanic.
    cbv zeta in Hpanic.
    destruct (hits_border _ _) eqn:Hb; [discriminate|].
    destruct (hits_body _ _); [discriminate|].
    destruct (same_cell _ _); [|discriminate].
    apply hits_border_false in Hb. destruct Hb as [Hbx Hby].
    revert Hpanic. apply spawnFood_no_panic; simpl.
    + exact (GoIntFacts.inner_width_pos _ _ Hbx).
    + exact (GoIntFacts.inner_width_pos _ _ Hby).
  - intros (Hgo & Hq & Hbody). unfold update. now rewrite Hgo, Hq, Hbody.
Qed.

(** X2: [spawnFood] panics exactly when [rand.Intn] gets a bound that is
    not positive: at once when [width-2 <= 0], and after the first draw
    when only [height-2 <= 0]. *)
Theorem spawnFood_panics_iff (g : Game) (rs : list Z) :
  spawnFood g rs = Panic <->
  GoInt.sub (width g) 2 <= 0 \/
  (GoInt.sub (height g) 2 <= 0 /\ rs <> []).
Proof.
  split.
  - intros Hpanic.
    destruct (Z.leb_spec (GoInt.sub (width g) 2) 0) as [Hw|Hw]; [now left|].
    destruct (Z.leb_spec (GoInt.sub (height g) 2) 0) as [Hh|Hh].
    + right. split; [exact Hh|]. intros ->.
      rewrite spawnFood_nil in Hpanic by assumption. discriminate.
    + exfalso. revert Hpanic. now apply spawnFood_no_panic.
  - intros [Hw | [Hh Hne]].
    + now apply spawnFood_panics_narrow.
    + destruct rs as [|a rs]; [contradiction|].
      simpl. unfold Intn.
      destruct (Z.leb_spec (GoInt.sub (width g) 2) 0); [reflexivity|].
      destruct (Z.leb_spec (GoInt.sub (height g) 2) 0); [reflexivity|lia].
Qed.

(** X3: when the snake covers every interior cell, no draws make
    [spawnFood] return: with positive inner dimensions it neither panics
    nor returns, it keeps looping however long the source is. *)
Theorem spawnFood_full_board (g : Game) :
  (forall p : Point, interior g p -> In p (body (snake g))) ->
  forall rs, ~ returned (spawnFood g rs) /\
    (0 < GoInt.sub (width g) 2 -> 0 < GoInt.sub (height g) 2 ->
     still_looping (spawnFood g rs) = true).
Proof.
  intros Hfull rs.
  assert (Hnot : ~ returned (spawnFood g rs)).
  { intros (g' & rest & Hret).
    destruct (spawnFood_break_valid rs g g' rest Hret) as [Hv Hint].
    apply food_valid_not_In in Hv. apply Hv.
    rewrite (spawnFood_ret_food_only rs g g' rest Hret) in Hint |- *.
    simpl. apply Hfull. exact Hint. }
  split; [exact Hnot|].
  intros Hw Hh.
  pose proof (spawnFood_no_panic g rs Hw Hh) as Hnp.
  destruct (spawnFood g rs) as [g' rest| |g'] eqn:Hs; simpl.
  - exfalso. apply Hnot. now exists g', rest.
  - congruence.
  - reflexivity.
Qed.

Lemma spawnFood_full_board_witness :
  still_looping (spawnFood fullGame [0; 0; 5; 7; 1; 1]) = true.
Proof.
  refine (proj2 (spawnFood_full_board fullGame _ [0; 0; 5; 7; 1; 1]) _ _).
  - intros [px py] [Hx Hy]. simpl in *.
    change (GoInt.sub 3 2) with 1 in *.
    left. f_equal; lia.
  - reflexivity.
  - reflexivity.
Defined.

(** ** init *)

Lemma spawnFood_congr rs : forall g1 g2 g1' rest,
  width g1 = width g2 -> height g1 = height g2 ->
  body (snake g1) = body (snake g2) ->
  spawnFood g1 rs = Ret g1' rest ->
  spawnFood g2 rs = Ret (set_food (food g1') g2) rest.
Proof.
  induction rs as [| a | a b rs IH] using pairs_ind;
    intros g1 g2 g1' rest Hw Hh Hb.
  - simpl. unfold Intn. destruct (_ <=? _); discriminate.
  - simpl. unfold Intn. repeat destruct (_ <=? _); discriminate.
  - simpl. unfold Intn. rewrite <- Hw, <- Hh.
    destruct (_ <=? _); [discriminate|].
    destruct (_ <=? _); [discriminate|].
    set (p := mkPoint _ _).
    unfold food_valid. simpl. rewrite <- Hb.
    destruct (negb _).
    + now intros [= <- <-].
    + intros Hret.
      exact (IH (set_food p g1) (set_food p g2) g1' rest Hw Hh Hb Hret).
Qed.

(** X4: a completed [init] does not depend on the game it is called on:
    it overwrites every field, so a restart leaves exactly the game that
    the same draws give at program start. *)
Theorem init_fresh (g g' g1 : Game) (rs rest : list Z) :
  init g rs = Ret g1 rest -> init g' rs = Ret g1 rest.
Proof.
  rewrite !init_unfold.
  destruct (spawnFood _ rs) as [g2 rest2| |g2] eqn:Hsp; simpl; try discriminate.
  intros [= <- <-].
  rewrite (spawnFood_congr rs
             (set_snake initialSnake (set_height 20 (set_width 40 g)))
             (set_snake initialSnake (set_height 20 (set_width 40 g')))
             g2 rest2 eq_refl eq_refl eq_refl Hsp).
  simpl. rewrite (spawnFood_ret_food_only rs _ g2 rest2 Hsp). reflexivity.
Qed.

Lemma init_fresh_witness :
  init (set_gameOver true wallGame) [9; 9; 3; 4] = init zeroGame [9; 9; 3; 4].
Proof.
  rewrite (init_fresh zeroGame (set_gameOver true wallGame)
             (set_food (mkPoint 4 5) startGame) [9; 9; 3; 4] []);
    reflexivity.
Defined.

(** ** The input handler *)

(** Induction along the iterations of the read loop. *)
Lemma handleInput_ind (P : list Z -> Game -> list Z -> outcome -> Prop) :
  (forall stdin g rs, quit g = true -> P stdin g rs (Ret g rs)) ->
  (forall g rs, quit g = false -> P [] g rs (Ret g rs)) ->
  (forall g rs, quit g = false -> P [27] g rs (Ret (escape 0 0 g) rs)) ->
  (forall g rs seq0, quit g = false ->
     P [27; seq0] g rs (Ret (escape seq0 0 g) rs)) ->
  (forall g rs seq0 seq1 more, quit g = false ->
     P more (escape seq0 seq1 g) rs (handleInput more (escape seq0 seq1 g) rs) ->
     P (27 :: seq0 :: seq1 :: more) g rs
       (handleInput more (escape seq0 seq1 g) rs)) ->
  (forall g rs key more, quit g = false -> key <> 27 ->
     (forall g1 rs1, handleKey key g rs = Ret g1 rs1 ->
        P more g1 rs1 (handleInput more g1 rs1)) ->
     P (key :: more) g rs (andThen (handleKey key g rs) (handleInput more))) ->
  forall stdin g rs, P stdin g rs (handleInput stdin g rs).
Proof.
  intros Hquit Hnil Hesc0 Hesc1 Hesc2 Hkey stdin.
  assert (Hlen : forall n stdin, (length stdin <= n)%nat ->
            forall g rs, P stdin g rs (handleInput stdin g rs)).
  { induction n as [|n IH]; intros [|key more] Hle g rs;
      try (simpl in Hle; lia).
    - simpl. destruct (quit g) eqn:Hq; auto.
    - simpl. destruct (quit g) eqn:Hq; auto.
    - simpl in Hle. simpl. destruct (quit g) eqn:Hq; [auto|].
      destruct (Z.eqb_spec key 27) as [-> | Hne].
      + destruct more as [|seq0 [|seq1 more]]; auto.
        apply Hesc2; [exact Hq|]. apply IH. simpl in Hle. lia.
      + apply Hkey; auto. intros g1 rs1 _. apply IH. lia. }
  intros g rs. now apply (Hlen (length stdin)).
Qed.

Lemma handleKey_no_panic key g rs : handleKey key g rs <> Panic.
Proof.
  unfold handleKey.
  destruct (_ || _); [discriminate|].
  destruct (_ || _); [|discriminate].
  destruct (gameOver g); [apply init_no_panic | discriminate].
Qed.

(** X5: [handleInput] panics on no input and in no game. *)
Theorem handleInput_no_panic (stdin : list Z) (g : Game) (rs : list Z) :
  handleInput stdin g rs <> Panic.
Proof.
  apply (handleInput_ind (fun _ _ _ o => o <> Panic)); try discriminate.
  - intros g0 rs0 seq0 seq1 more _ IH. exact IH.
  - intros g0 rs0 key more _ _ IH.
    pose proof (handleKey_no_panic key g0 rs0) as Hk.
    destruct (handleKey key g0 rs0) as [g1 rs1| |g1] eqn:Hkey; simpl.
    + now apply IH.
    + congruence.
    + discriminate.
Qed.

(** What one arrow sequence can do. *)
Lemma escape_effect seq0 seq1 g :
  escape seq0 seq1 g = g \/
  exists d, unit_vector d /\ escape seq0 seq1 g = set_direction d g.
Proof.
  unfold escape, arrow.
  destruct (seq0 =? 91); [|now left].
  assert (Hturn : forall dx dy, unit_vector (mkPoint dx dy) ->
            changeDirection dx dy g = g \/
            exists d, unit_vector d /\
                      changeDirection dx dy g = set_direction d g).
  { intros dx dy Hu. unfold changeDirection.
    destruct (_ && _); [now left | right; eauto]. }
  destruct (seq1 =? 65); [apply Hturn; unfold unit_vector; tauto|].
  destruct (seq1 =? 66); [apply Hturn; unfold unit_vector; tauto|].
  destruct (seq1 =? 67); [apply Hturn; unfold unit_vector; tauto|].
  destruct (seq1 =? 68); [apply Hturn; unfold unit_vector; tauto|].
  now left.
Qed.

(** X6: while the game is not over, whatever bytes arrive, [handleInput]
    returns without taking a random draw and changes nothing but the
    direction and [quit]: body, food, score, board size and [gameOver]
    stay, and the direction is the old one or one of the four unit
    vectors. *)
Theorem handleInput_live (stdin : list Z) (g : Game) (rs : list Z) :
  gameOver g = false ->
  exists g', handleInput stdin g rs = Ret g' rs /\
    body (snake g') = body (snake g) /\ food g' = food g /\
    score g' = score g /\ width g' = width g /\ height g' = height g /\
    gameOver g' = false /\
    (direction (snake g') = direction (snake g) \/
     unit_vector (direction (snake g'))).
Proof.
  revert stdin g rs.
  assert (Hesc : forall seq0 seq1 g,
            body (snake (escape seq0 seq1 g)) = body (snake g) /\
            food (escape seq0 seq1 g) = food g /\
            score (escape seq0 seq1 g) = score g /\
            width (escape seq0 seq1 g) = width g /\
            height (escape seq0 seq1 g) = height g /\
            gameOver (escape seq0 seq1 g) = gameOver g /\
            (direction (snake (escape seq0 seq1 g)) = direction (snake g) \/
             unit_vector (direction (snake (escape seq0 seq1 g))))).
  { intros seq0 seq1 g.
    destruct (escape_effect seq0 seq1 g) as [-> | (d & Hd & ->)];
      simpl; tauto. }
  apply (handleInput_ind (fun _ g rs o =>
    gameOver g = false ->
    exists g', o = Ret g' rs /\
      body (snake g') = body (snake g) /\ food g' = food g /\
      score g' = score g /\ width g' = width g /\ height g' = height g /\
      gameOver g' = false /\
      (direction (snake g') = direction (snake g) \/
       unit_vector (direction (snake g'))))).
  - intros _ g rs _ Hgo. exists g. tauto.
  - intros g rs _ Hgo. exists g. tauto.
  - intros g rs _ Hgo. exists (escape 0 0 g).
    destruct (Hesc 0 0 g) as (? & ? & ? & ? & ? & ? & ?).
    repeat split; try assumption; congruence.
  - intros g rs seq0 _ Hgo. exists (escape seq0 0 g).
    destruct (Hesc seq0 0 g) as (? & ? & ? & ? & ? & ? & ?).
    repeat split; try assumption; congruence.
  - intros g rs seq0 seq1 more _ IH Hgo.
    destruct (Hesc seq0 seq1 g) as (Hb & Hf & Hs & Hw & Hh & Hg & Hd).
    destruct IH as (g' & Hret & Hb' & Hf' & Hs' & Hw' & Hh' & Hg' & Hd');
      [congruence|].
    exists g'. repeat split; try congruence.
    destruct Hd' as [Hd' | Hd']; [|now right].
    rewrite Hd'. exact Hd.
  - intros g rs key more _ _ IH Hgo.
    unfold handleKey in *. rewrite Hgo in *.
    destruct (_ || _).
    + simpl. unfold handleInput.
      destruct more; simpl; exists (set_quit true g); simpl; tauto.
    + assert (Hsame : (if (key =? 114) || (key =? 82) then Ret g rs
                       else Ret g rs) = Ret g rs)
        by (destruct (_ || _); reflexivity).
      rewrite Hsame in *. simpl. apply (IH g rs eq_refl Hgo).
Qed.

Lemma handleInput_live_witness :
  exists g', handleInput [120; 27; 91; 65; 114; 113; 27; 91; 66] startGame [4; 2]
             = Ret g' [4; 2] /\
    body (snake g') = body (snake startGame) /\ food g' = food startGame /\
    score g' = score startGame /\ width g' = width startGame /\
    height g' = height startGame /\ gameOver g' = false /\
    (direction (snake g') = direction (snake startGame) \/
     unit_vector (direction (snake g'))).
Proof.
  apply (handleInput_live _ startGame [4; 2]). reflexivity.
Defined.



(** ** The running program *)

Lemma contiguous_removelast l : contiguous l -> contiguous (removelast l).
Proof.
  induction l as [|a l IH]; [tauto|].
  destruct l as [|b l]; [simpl; tauto|].
  intros [Hab Hl]. specialize (IH Hl).
  change (removelast (a :: b :: l)) with (a :: removelast (b :: l)).
  destruct l as [|c l]; [simpl; tauto|].
  change (removelast (b :: c :: l)) with (b :: removelast (c :: l)) in *.
  split; assumption.
Qed.

(** A step in a unit direction from an interior cell lands next to it. *)
Lemma unit_step_adjacent head d :
  1 <= x head <= 38 -> 1 <= y head <= 18 -> unit_vector d ->
  adjacent (step_from head d) head.
Proof.
  intros Hx Hy Hd. unfold adjacent, step_from. simpl.
  destruct Hd as [-> | [-> | [-> | ->]]]; simpl;
    unfold GoInt.add; rewrite !GoIntFacts.wrap_small;
    unfold GoInt.in_range, GoInt.min_int, GoInt.max_int, GoInt.bits;
    try lia.
Qed.

(** What a returned tick has done. *)
Lemma update_returned g rs g' rest :
  update g rs = Ret g' rest ->
  g' = g \/ g' = set_gameOver true g \/
  exists head tl,
    body (snake g) = head :: tl /\
    gameOver g = false /\ quit g = false /\
    hits_border g (step_from head (direction (snake g))) = false /\
    ~ In (step_from head (direction (snake g))) (head :: tl) /\
    ((step_from head (direction (snake g)) <> food g /\
      g' = set_body (step_from head (direction (snake g))
                     :: removelast (head :: tl)) g) \/
     (step_from head (direction (snake g)) = food g /\
      ~ In (food g') (step_from head (direction (snake g)) :: head :: tl) /\
      g' = set_food (food g')
             (set_score (GoInt.add (score g) 1)
                (set_body (step_from head (direction (snake g)) :: head :: tl)
                          g)))).
Proof.
  intros Hret.
  destruct (gameOver g || quit g) eqn:Hstop.
  { unfold update in Hret. rewrite Hstop in Hret. left. congruence. }
  apply orb_false_iff in Hstop. destruct Hstop as [Hgo Hq].
  destruct (body (snake g)) as [|head tl] eqn:Hbody.
  { unfold update in Hret. rewrite Hgo, Hq, Hbody in Hret. discriminate. }
  rewrite (update_live g rs head tl Hgo Hq Hbody) in Hret. cbv zeta in Hret.
  set (nh := step_from head (direction (snake g))) in *.
  destruct (hits_border g nh) eqn:Hb; [right; left; congruence|].
  destruct (hits_body nh (head :: tl)) eqn:Hself; [right; left; congruence|].
  apply hits_body_not_In in Hself.
  right. right. exists head, tl.
  repeat (split; [assumption || reflexivity|]).
  destruct (same_cell nh (food g)) eqn:Heat.
  - apply same_cell_eq in Heat. right. split; [exact Heat|].
    pose proof (spawnFood_ret_food_only rs _ g' rest Hret) as Hg'.
    destruct (spawnFood_break_valid rs _ g' rest Hret) as [Hv _].
    apply food_valid_not_In in Hv.
    split; [|exact Hg'].
    rewrite Hg' in Hv. simpl in Hv. exact Hv.
  - apply same_cell_neq in Heat. left. split; [exact Heat|].
    now injection Hret as <- _.
Qed.

Lemma play_invariant_init g0 rs g rest :
  init g0 rs = Ret g rest -> play_invariant g.
Proof.
  intros Hret. split; [exact (invariant_init _ _ _ _ Hret)|].
  destruct (init_effect _ _ _ _ Hret) as (_ & _ & Hsn & _ & _ & _ & Hfree & _).
  split; [exact Hfree|]. rewrite Hsn. simpl.
  split; [unfold unit_vector; tauto|].
  unfold adjacent; simpl. lia.
Qed.

Lemma play_invariant_update g rs g' rest :
  play_invariant g -> update g rs = Ret g' rest -> play_invariant g'.
Proof.
  intros (Hinv & Hfree & Hunit & Hcont) Hret.
  assert (Hinv' : invariant g')
    by (apply (invariant_update g rs); [exact Hinv | now rewrite Hret]).
  split; [exact Hinv'|].
  destruct (update_returned g rs g' rest Hret)
    as [-> | [-> | (head & tl & Hbody & Hgo & Hq & Hb & Hself & Hcase)]];
    [tauto | simpl; tauto |].
  destruct Hinv as (Hw & Hh & _ & Hall & _).
  rewrite Hbody in *.
  assert (Hhead : 1 <= x head <= 38 /\ 1 <= y head <= 18).
  { apply Forall_cons in Hall. destruct Hall as [Hhead _].
    now apply (interior_40_20 g head Hw Hh). }
  pose proof (unit_step_adjacent head _ (proj1 Hhead) (proj2 Hhead) Hunit)
    as Hadj.
  set (nh := step_from head (direction (snake g))) in *.
  destruct Hcase as [[Hne ->] | (Heq & Hfree' & ->)]; simpl.
  - split; [|split; [exact Hunit|]].
    + intros [Hin | Hin]; [congruence|].
      apply Hfree. now apply In_removelast.
    + apply (contiguous_removelast (nh :: head :: tl)). split; assumption.
  - split; [exact Hfree'|]. split; [exact Hunit|]. split; assumption.
Qed.

Lemma play_invariant_escape seq0 seq1 g :
  play_invariant g -> play_invariant (escape seq0 seq1 g).
Proof.
  intros (Hinv & Hfree & Hunit & Hcont).
  destruct (escape_effect seq0 seq1 g) as [-> | (d & Hd & ->)];
    [exact (conj Hinv (conj Hfree (conj Hunit Hcont)))|].
  split; [|simpl; tauto].
  unfold invariant, interior in *. simpl. exact Hinv.
Qed.

Lemma play_invariant_key key g rs g' rest :
  play_invariant g -> handleKey key g rs = Ret g' rest -> play_invariant g'.
Proof.
  intros Hplay. unfold handleKey.
  destruct (_ || _).
  { intros [= <- _]. destruct Hplay as (Hinv & Hrest).
    split; [|simpl; exact Hrest].
    unfold invariant, interior in *. simpl. exact Hinv. }
  destruct (_ || _); [|now intros [= <- _]].
  destruct (gameOver g); [|now intros [= <- _]].
  apply play_invariant_init.
Qed.

Lemma play_invariant_input stdin g rs g' rest :
  play_invariant g -> handleInput stdin g rs = Ret g' rest ->
  play_invariant g'.
Proof.
  revert g' rest.
  apply (handleInput_ind (fun _ g _ o => forall g' rest,
           play_invariant g -> o = Ret g' rest -> play_invariant g')).
  - now intros _ g0 rs0 _ g' rest Hp [= <- _].
  - now intros g0 rs0 _ g' rest Hp [= <- _].
  - intros g0 rs0 _ g' rest Hp [= <- _]. now apply play_invariant_escape.
  - intros g0 rs0 seq0 _ g' rest Hp [= <- _]. now apply play_invariant_escape.
  - intros g0 rs0 seq0 seq1 more _ IH g' rest Hp Hret.
    apply (IH g' rest); [now apply play_invariant_escape | exact Hret].
  - intros g0 rs0 key more _ _ IH g' rest Hp Hret.
    destruct (handleKey key g0 rs0) as [g1 rs1| |g1] eqn:Hkey;
      simpl in Hret; try discriminate.
    apply (IH g1 rs1 eq_refl g' rest); [|exact Hret].
    now apply (play_invariant_key key g0 rs0 g1 rs1).
Qed.

Lemma in_play_invariant g : in_play g -> play_invariant g.
Proof.
  induction 1 as [rs g rest Hinit
                 | g rs g' rest _ IH Hq Htick
                 | g stdin rs g' rest _ IH Hin].
  - exact (play_invariant_init _ _ _ _ Hinit).
  - simpl in Htick. destruct (gameOver g).
    + now injection Htick as <- _.
    + exact (play_invariant_update g rs g' rest IH Htick).
  - exact (play_invariant_input stdin g rs g' rest IH Hin).
Qed.




Lemma reachable_turnedGame : reachable turnedGame.
Proof.
  unfold turnedGame. do 2 apply reach_turn.
  apply (reach_update startGame [] _ []); [|reflexivity].
  apply (reach_init zeroGame [0; 0] startGame []). reflexivity.
Qed.







(** X11: a live tick whose direction is the exact reverse of the step
    that brought the head from the neck moves nothing: the new head is the
    neck, and [update] sets [gameOver] and returns. *)
Theorem tick_into_neck (g : Game) (rs : list Z) (head neck dprev : Point)
    (tl : list Point) :
  reachable g \/ in_play g ->
  gameOver g = false -> quit g = false ->
  body (snake g) = head :: neck :: tl ->
  head = step_from neck dprev ->
  reverse_of (direction (snake g)) dprev = true ->
  update g rs = Ret (set_gameOver true g) rs.
Proof.
  intros Hg Hgo Hq Hbody Hhead Hrev.
  apply (reversed_tick_ends_game g rs head neck tl dprev); try assumption.
  destruct Hg as [Hr | Hp];
    [now apply reachable_invariant | now destruct (in_play_invariant g Hp)].
Qed.

Lemma tick_into_neck_witness :
  update turnedGame [5; 5] = Ret (set_gameOver true turnedGame) [5; 5].
Proof.
  apply (tick_into_neck turnedGame [5; 5] (mkPoint 11 10) (mkPoint 10 10)
           (mkPoint 1 0) [mkPoint 9 10]);
    [left; exact reachable_turnedGame | reflexivity..].
Defined.

(** ** What render draws *)

Lemma lookup_map {A B} (f : A -> B) (l : list A) (i : nat) :
  map f l !! i = f <$> (l !! i).
Proof.
  revert i. induction l as [|a l IH]; intros [|i]; simpl; auto.
Qed.

Lemma blank_board_shape g board :
  blank_board g = Some board ->
  0 <= height g /\ (0 < height g -> 0 <= width g) /\
  has_dims (Z.to_nat (height g)) (Z.to_nat (width g)) board.
Proof.
  unfold blank_board.
  destruct (Z.ltb_spec (height g) 0); [discriminate|].
  destruct (Z.ltb_spec 0 (height g)); destruct (Z.ltb_spec (width g) 0);
    cbn [andb]; try discriminate; intros [= <-];
    (split; [lia|]; split; [lia|]; split;
     [now rewrite length_map, length_seqZ|]);
    apply List.Forall_forall; intros line Hin;
    apply in_map_iff in Hin; destruct Hin as (i & <- & Hi);
    now rewrite length_map, length_seqZ.
Qed.

Lemma blank_board_cell g board i j :
  blank_board g = Some board ->
  0 <= i < height g -> 0 <= j < width g ->
  cell board i j =
  Some (if (i =? 0) || (i =? GoInt.sub (height g) 1)
           || (j =? 0) || (j =? GoInt.sub (width g) 1)
        then glyph_border else glyph_empty).
Proof.
  unfold blank_board.
  destruct (Z.ltb_spec (height g) 0); [discriminate|].
  destruct ((0 <? height g) && (width g <? 0)); [discriminate|].
  intros [= <-] Hi Hj. unfold cell.
  rewrite lookup_map, lookup_seqZ_lt by lia. simpl.
  rewrite lookup_map, lookup_seqZ_lt by lia. simpl.
  now rewrite !Z2Nat.id by lia.
Qed.

(** A store that succeeded was in bounds, and changed one cell. *)
Lemma store_inv h w row col r board board' :
  has_dims h w board -> store row col r board = Some board' ->
  (0 <= row < Z.of_nat h /\ 0 <= col < Z.of_nat w) /\
  has_dims h w board' /\
  forall i j, 0 <= i -> 0 <= j ->
    cell board' i j =
    if (i =? row) && (j =? col) then Some r else cell board i j.
Proof.
  intros [Hlen Hrows]. unfold store.
  destruct (Z.ltb_spec row 0); [discriminate|].
  destruct (Z.leb_spec (Z.of_nat (length board)) row); [discriminate|].
  cbn [orb].
  destruct (board !! Z.to_nat row) as [line|] eqn:Hline; [|discriminate].
  assert (Hll : length line = w) by exact (Forall_lookup_1 _ _ _ _ Hrows Hline).
  destruct (Z.ltb_spec col 0); [discriminate|].
  destruct (Z.leb_spec (Z.of_nat (length line)) col); [discriminate|].
  cbn [orb]. intros [= <-].
  split; [lia|]. split.
  - split; [now rewrite length_insert|].
    apply Forall_insert; [exact Hrows|]. now rewrite length_insert.
  - intros i j Hi Hj. unfold cell.
    destruct (Z.eqb_spec i row) as [-> | Hne]; cbn [andb].
    + rewrite list_lookup_insert_eq by lia.
      destruct (Z.eqb_spec j col) as [-> | Hne].
      * apply list_lookup_insert_eq. lia.
      * rewrite Hline. apply list_lookup_insert_ne. lia.
    + rewrite list_lookup_insert_ne by lia. reflexivity.
Qed.

Lemma draw_snake_inv h w segments : forall board board',
  has_dims h w board -> draw_snake segments board = Some board' ->
  Forall (fun p => 0 <= y p < Z.of_nat h /\ 0 <= x p < Z.of_nat w) segments /\
  has_dims h w board' /\
  forall i j, 0 <= i -> 0 <= j ->
    cell board' i j =
    if hits_body (mkPoint j i) segments then Some glyph_snake
    else cell board i j.
Proof.
  induction segments as [|p segments IH]; intros board board' Hd.
  - intros [= <-]. simpl. auto.
  - simpl. destruct (store _ _ _ _) as [board1|] eqn:Hst; [|discriminate].
    intros Hdraw.
    destruct (store_inv h w _ _ _ _ _ Hd Hst) as (Hp & Hd1 & Hc1).
    destruct (IH board1 board' Hd1 Hdraw) as (Hall & Hd' & Hc').
    split; [constructor; assumption|]. split; [exact Hd'|].
    intros i j Hi Hj. rewrite Hc', Hc1 by assumption.
    unfold same_cell. simpl.
    rewrite (andb_comm (j =? x p)).
    destruct (hits_body _ segments); [now rewrite orb_true_r|].
    rewrite orb_false_r. now destruct ((i =? y p) && (j =? x p)).
Qed.

(** X12: the board [render] prints has [height] rows of [width] cells, and
    the cell in row [i], column [j] shows the snake glyph when a segment
    is at [(j,i)]; else the food glyph when the food is there; else the
    border glyph in the first and last row and column and a blank
    everywhere else. *)
Theorem render_board_cells (g : Game) (board : list (list Z)) :
  render_board g = Some board ->
  has_dims (Z.to_nat (height g)) (Z.to_nat (width g)) board /\
  forall i j, 0 <= i < height g -> 0 <= j < width g ->
    cell board i j =
    Some (if hits_body (mkPoint j i) (body (snake g)) then glyph_snake
          else if same_cell (mkPoint j i) (food g) then glyph_food
          else if (i =? 0) || (i =? GoInt.sub (height g) 1)
                  || (j =? 0) || (j =? GoInt.sub (width g) 1)
               then glyph_border else glyph_empty).
Proof.
  unfold render_board.
  destruct (blank_board g) as [b0|] eqn:Hb0; [|discriminate].
  destruct (store _ _ _ b0) as [b1|] eqn:Hb1; [|discriminate].
  intros Hdraw.
  destruct (blank_board_shape g b0 Hb0) as (_ & _ & Hd0).
  destruct (store_inv _ _ _ _ _ _ _ Hd0 Hb1) as (_ & Hd1 & Hc1).
  destruct (draw_snake_inv _ _ _ _ _ Hd1 Hdraw) as (_ & Hd' & Hc').
  split; [exact Hd'|].
  intros i j Hi Hj. rewrite Hc', Hc1 by lia.
  rewrite (blank_board_cell g b0 i j Hb0 Hi Hj).
  unfold same_cell. simpl. rewrite (andb_comm (j =? x (food g))).
  destruct (hits_body _ _); [reflexivity|].
  now destruct ((i =? y (food g)) && (j =? x (food g))).
Qed.

Lemma render_board_cells_witness :
  exists board, render_board startGame = Some board /\
    cell board 10 10 = Some glyph_snake /\ cell board 1 1 = Some glyph_food /\
    cell board 0 7 = Some glyph_border /\ cell board 5 5 = Some glyph_empty.
Proof.
  destruct (render_board startGame) as [board|] eqn:Hr;
    [|vm_compute in Hr; discriminate].
  exists board. split; [reflexivity|].
  pose proof (proj2 (render_board_cells startGame board Hr)) as Hc.
  repeat split; rewrite Hc by (vm_compute; intuition discriminate);
    reflexivity.
Defined.


(** ** Terminal mode *)

Lemma ldiff_bounded a m : 0 <= a -> 0 <= Z.ldiff a m <= a.
Proof.
  intros Ha. split; [apply Z.ldiff_nonneg; now left|].
  assert (Hsub : Z.ldiff (Z.land a m) a = 0).
  { apply Z.bits_inj'. intros n Hn.
    rewrite Z.ldiff_spec, Z.land_spec, Z.bits_0.
    destruct (Z.testbit a n), (Z.testbit m n); reflexivity. }
  pose proof (Z.sub_nocarry_ldiff a (Z.land a m) Hsub) as Heq.
  assert (Hsame : Z.ldiff a (Z.land a m) = Z.ldiff a m).
  { apply Z.bits_inj'. intros n Hn.
    rewrite !Z.ldiff_spec, Z.land_spec.
    destruct (Z.testbit a n), (Z.testbit m n); reflexivity. }
  assert (Hpos : 0 <= Z.land a m) by (apply Z.land_nonneg; now left).
  lia.
Qed.

(** X14: the raw settings differ from the original ones in exactly this:
    bits 1 and 3 of [Lflag] (masks 0x2 and 0x8) are cleared and every
    other bit is kept, so [Lflag] does not grow; [Cc[6]] is 1, [Cc[5]] is 0
    and every other entry of [Cc] is kept; the other five fields are
    kept.  Making settings raw that are raw already changes nothing. *)
Theorem rawTermios_effect (t : termios) :
  (forall i, Z.testbit (Lflag (rawTermios t)) i =
             Z.testbit (Lflag t) i && negb ((i =? 1) || (i =? 3))) /\
  (0 <= Lflag t -> 0 <= Lflag (rawTermios t) <= Lflag t) /\
  length (Cc (rawTermios t)) = length (Cc t) /\
  (length (Cc t) = 20%nat ->
   Cc (rawTermios t) !! 6%nat = Some 1 /\ Cc (rawTermios t) !! 5%nat = Some 0) /\
  (forall k, k <> 5%nat -> k <> 6%nat -> Cc (rawTermios t) !! k = Cc t !! k) /\
  Iflag (rawTermios t) = Iflag t /\ Oflag (rawTermios t) = Oflag t /\
  Cflag (rawTermios t) = Cflag t /\
  Ispeed (rawTermios t) = Ispeed t /\ Ospeed (rawTermios t) = Ospeed t /\
  rawTermios (rawTermios t) = rawTermios t.
Proof.
  assert (Hbits : forall l i, Z.testbit (Z.ldiff l (Z.lor 2 8)) i =
             Z.testbit l i && negb ((i =? 1) || (i =? 3))).
  { intros l i. rewrite Z.ldiff_spec.
    change 2 with (2 ^ 1) at 1. change 8 with (2 ^ 3).
    rewrite Z.lor_spec, !Z.pow2_bits_eqb by lia.
    now rewrite (Z.eqb_sym 1), (Z.eqb_sym 3). }
  split; [intros i; apply Hbits|].
  split; [intros Hl; now apply ldiff_bounded|].
  split; [simpl; now rewrite !length_insert|].
  split.
  { intros Hlen. simpl. split.
    - rewrite list_lookup_insert_ne by lia.
      apply list_lookup_insert_eq. lia.
    - apply list_lookup_insert_eq. rewrite length_insert. lia. }
  split.
  { intros k H5 H6. simpl. now rewrite !list_lookup_insert_ne by lia. }
  repeat (split; [reflexivity|]).
  unfold rawTermios. simpl. f_equal.
  - apply Z.bits_inj'. intros n _. rewrite !Hbits.
    now destruct (Z.testbit (Lflag t) n), (negb _).
  - rewrite (list_insert_insert_ne _ 5 6) by lia.
    rewrite list_insert_insert_eq.
    rewrite (list_insert_insert_ne _ 6 5) by lia.
    now rewrite list_insert_insert_eq.
Qed.

Section TerminalLaws.

(** A terminal that keeps the settings last written to it and reads them
    back unchanged. *)
Variable W : Type.
Variable tcgetattr : W -> termios.
Variable tcsetattr : termios -> W -> W.
Hypothesis get_set : forall t w, tcgetattr (tcsetattr t w) = t.
Hypothesis set_set : forall t t' w, tcsetattr t (tcsetattr t' w) = tcsetattr t w.
Hypothesis set_get : forall w, tcsetattr (tcgetattr w) w = w.

(** X15: [enableRawMode] followed by [disableRawMode] leaves the terminal
    exactly as it was; in between the terminal has the raw settings made
    from the original ones, which are saved in [originalTermios]; and
    [disableRawMode] does nothing while [originalTermios] is nil. *)
Theorem raw_mode_round_trip (p : process W) :
  terminal (disableRawMode tcsetattr (enableRawMode tcgetattr tcsetattr p))
  = terminal p /\
  tcgetattr (terminal (enableRawMode tcgetattr tcsetattr p))
  = rawTermios (tcgetattr (terminal p)) /\
  originalTermios (enableRawMode tcgetattr tcsetattr p)
  = Some (tcgetattr (terminal p)) /\
  (originalTermios p = None -> disableRawMode tcsetattr p = p).
Proof.
  unfold disableRawMode, enableRawMode. simpl.
  rewrite set_set, set_get, get_set.
  repeat split. now intros ->.
Qed.

(** X16: a second [enableRawMode] overwrites the saved settings with the
    raw ones: [disableRawMode] then puts the terminal back into raw mode,
    not into its original mode. *)
Theorem second_enable_loses_original (p : process W) :
  tcgetattr
    (terminal
       (disableRawMode tcsetattr
          (enableRawMode tcgetattr tcsetattr
             (enableRawMode tcgetattr tcsetattr p))))
  = rawTermios (tcgetattr (terminal p)).
Proof.
  unfold disableRawMode, enableRawMode. simpl.
  now rewrite !get_set.
Qed.

End TerminalLaws.

Lemma raw_mode_round_trip_witness :
  terminal (disableRawMode (fun t _ => t)
              (enableRawMode (fun w => w) (fun t _ => t)
                 (mkProcess plainTermios None)))
  = plainTermios.
Proof.
  apply (raw_mode_round_trip termios (fun w => w) (fun t _ => t));
    reflexivity.
Defined.

Lemma second_enable_loses_original_witness :
  terminal (disableRawMode (fun t _ => t)
              (enableRawMode (fun w => w) (fun t _ => t)
                 (enableRawMode (fun w => w) (fun t _ => t)
                    (mkProcess plainTermios None))))
  = rawTermios plainTermios.
Proof.
  apply (second_enable_loses_original termios (fun w => w) (fun t _ => t)).
  reflexivity.
Defined.

(** ** What a tick leaves alone *)

(** X17: a tick that returns never changes the board size, the direction
    or [quit], never clears [gameOver], never shortens the snake and never
    lowers the number of segments by more than it adds: the body keeps its
    length or grows by one, and when it grows its old segments follow the
    new head unchanged. *)
Theorem update_frame (g g' : Game) (rs rest : list Z) :
  update g rs = Ret g' rest ->
  width g' = width g /\ height g' = height g /\ quit g' = quit g /\
  direction (snake g') = direction (snake g) /\
  (gameOver g = true -> gameOver g' = true) /\
  (length (body (snake g')) = length (body (snake g)) \/
   exists nh, body (snake g') = nh :: body (snake g)).
Proof.
  intros Hret.
  destruct (update_returned g rs g' rest Hret)
    as [-> | [-> | (head & tl & Hbody & Hgo & Hq & _ & _ & Hcase)]].
  - repeat split; auto.
  - simpl. repeat split; auto.
  - rewrite Hbody.
    pose proof (length_removelast (head :: tl)) as Hl.
    remember (removelast (head :: tl)) as shorter.
    destruct Hcase as [[_ ->] | (_ & _ & ->)]; simpl.
    + repeat split; try congruence.
      left. rewrite Hl by discriminate. reflexivity.
    + repeat split; try congruence. right. eauto.
Qed.

Lemma update_frame_witness :
  direction (snake (set_body [mkPoint 11 10; mkPoint 10 10; mkPoint 9 10]
                             startGame))
  = direction (snake startGame).
Proof.
  apply (update_frame startGame _ [] []). reflexivity.
Defined.
